(** * Trace replay into observability backends: load_braintrust.py and load_langsmith.py

    Shallow embedding of the two replay scripts of the benchmark:
    - the JSONL parsing loop (Record Store),
    - the tree indexing loop (Tree Indexer),
    - the recursive emission [log_child_span] / [log_child_run] and the
      replay loops with their flush policy (Replay Engine, Flush Governor),
    - the start-up sequence up to the first file or backend access;
    and of the download of the trace file, prepare_data.py.

    Python dicts holding rows are shared objects: [tree] maps an id to the
    very row object stored in [rows], so mutations through [tree] are seen
    by [rows].  We model a row object by its position in the row store
    ([list span_row]) and [tree] as a map from ids to positions. *)

From Stdlib Require Import ZArith Lia Relations ListDec.
From stdpp Require Import base gmap strings list.

Open Scope Z_scope.
Set Warnings "-register-all".

(** ** Exceptions raised by the scripts *)

Inductive exn :=
| KeyError            (* missing dict key *)
| OSError             (* opening / reading the trace file failed *)
| OutOfFuel.          (* evaluation bound of the recursive emission exhausted *)

(** ** Records of big_traces.jsonl *)

(** The [span_parents] key of a JSON row: absent, [null], or a list. *)
Inductive parents_field :=
| SPAbsent
| SPNull
| SPList (ps : list string).

(** A parsed row.  [input] and [output] are opaque pass-through payloads
    and are not modelled; metadata values are opaque strings. *)
Record span_row := mk_row {
  id : string;
  span_id : string;
  span_parents : parents_field;
  span_name : string;                    (* span_attributes.name *)
  metadata : gmap string string
}.

Definition without_parents (r : span_row) : span_row :=
  mk_row (id r) (span_id r) SPAbsent (span_name r) (metadata r).

Definition with_metadata (r : span_row) (md : gmap string string) : span_row :=
  mk_row (id r) (span_id r) (span_parents r) (span_name r) md.

(** ** Lookup tree: [for row in rows: tree[row["id"]] = row] *)

Fixpoint build_tree_from (i : nat) (rows : list span_row) (tree : gmap string nat)
  : gmap string nat :=
  match rows with
  | [] => tree
  | row :: rest => build_tree_from (S i) rest (<[id row := i]> tree)
  end.

Definition build_tree (rows : list span_row) : gmap string nat :=
  build_tree_from 0 rows ∅.

(** ** Tree indexing

    [if not args.flatten and row["span_parents"] and len(row["span_parents"]) > 0]
    evaluated with Python's short-circuit: in flatten mode the key is never
    read; otherwise reading an absent key raises [KeyError], and [None] or
    an empty list is falsy.  The result is the parent list when the child
    branch is taken. *)
Definition child_branch (flatten : bool) (row : span_row) : exn + option (list string) :=
  if flatten then inr None
  else match span_parents row with
       | SPAbsent => inl KeyError
       | SPNull => inr None
       | SPList [] => inr None
       | SPList ps => inr (Some ps)
       end.

(** [if parent not in children: children[parent] = []]
    [children[parent].append(row["id"])] *)
Definition register_child (rid : string) (children : gmap string (list string)) (parent : string)
  : gmap string (list string) :=
  <[parent := default [] (children !! parent) ++ [rid]]> children.

(** load_braintrust.py, line 175: [del row["span_parents"]] (KeyError when absent). *)
Definition del_parents_bt (row : span_row) : exn + span_row :=
  match span_parents row with
  | SPAbsent => inl KeyError
  | _ => inr (without_parents row)
  end.

(** load_langsmith.py, lines 170-171:
    [if "span_parents" in row: del row["span_parents"]]. *)
Definition del_parents_ls (row : span_row) : exn + span_row :=
  match span_parents row with
  | SPAbsent => inr row
  | _ => inr (without_parents row)
  end.

Section Indexing.
(** The two scripts share the indexing loop but for the root branch's
    deletion of [span_parents]. *)
Variable del_parents : span_row -> exn + span_row.

(** Processes [rows] in order; returns the rows after mutation (the
    objects [tree] refers to), the [children] dict and the [roots] list. *)
Fixpoint index_loop (flatten : bool) (rows : list span_row)
    (children : gmap string (list string)) (roots : list string)
    : exn + (list span_row * gmap string (list string) * list string) :=
  match rows with
  | [] => inr ([], children, roots)
  | row :: rest =>
      match child_branch flatten row with
      | inl e => inl e
      | inr (Some ps) =>
          match index_loop flatten rest (foldl (register_child (id row)) children ps) roots with
          | inl e => inl e
          | inr (rows', c, r) => inr (row :: rows', c, r)
          end
      | inr None =>
          match del_parents row with
          | inl e => inl e
          | inr row' =>
              match index_loop flatten rest children (roots ++ [id row]) with
              | inl e => inl e
              | inr (rows', c, r) => inr (row' :: rows', c, r)
              end
          end
      end
  end.
End Indexing.

Definition index_bt (flatten : bool) (rows : list span_row) :=
  index_loop del_parents_bt flatten rows ∅ [].

Definition index_ls (flatten : bool) (rows : list span_row) :=
  index_loop del_parents_ls flatten rows ∅ [].

(** ** Replay state and a small state/exception monad

    The state is the row store (row objects, mutated in place by the
    Braintrust root emission) and the log of calls made on the backend. *)

Inductive event :=
| EOpen (node : string) (name : string)
    (* start_span(name) / RunTree(name=...) / create_child(name, ...) *)
| EAttach (node : string) (md : option (gmap string string))
    (* span.log(input, output[, metadata]) / inputs, outputs[, metadata] *)
| EClose (node : string)
    (* end of the [with] block / run.end(); run.post() *)
| EFlush.
    (* bt_logger.flush() / client.flush() *)

Record state := mk_state { st_rows : list span_row; st_log : list event }.

Definition M (A : Type) : Type := state -> exn + (A * state).

Definition ret {A} (a : A) : M A := fun s => inr (a, s).

Definition bind {A B} (m : M A) (k : A -> M B) : M B :=
  fun s => match m s with inl e => inl e | inr (a, s') => k a s' end.

Definition raise {A} (e : exn) : M A := fun _ => inl e.

Notation "x <- m ;; k" := (bind m (fun x => k))
  (at level 100, m at next level, right associativity).
Notation "m ;;; k" := (bind m (fun _ => k)) (at level 100, right associativity).

Definition emit (ev : event) : M unit :=
  fun s => inr (tt, mk_state (st_rows s) (st_log s ++ [ev])).

(** [tree[node_id]]: the position of the row object, and the row itself. *)
Definition lookup_row (tree : gmap string nat) (node_id : string) : M (nat * span_row) :=
  fun s => match tree !! node_id with
           | None => inl KeyError
           | Some p => match st_rows s !! p with
                       | None => inl KeyError
                       | Some row => inr ((p, row), s)
                       end
           end.

Definition set_row (p : nat) (row : span_row) : M unit :=
  fun s => inr (tt, mk_state (<[p := row]> (st_rows s)) (st_log s)).

(** [for x in l: f(x)] *)
Fixpoint for_each (f : string -> M unit) (l : list string) : M unit :=
  match l with
  | [] => ret tt
  | x :: rest => f x ;;; for_each f rest
  end.

Definition ROOT_SPAN_NAME : string := "Chat Pipeline".
Definition ROOT_RUN_NAME : string := "Chat Pipeline".
Definition DEFAULT_MODEL : string := "gpt-4o".

(** [children.get(key, [])] *)
Definition children_get (children : gmap string (list string)) (key : string) : list string :=
  default [] (children !! key).

(** *** load_braintrust.py: [log_child_span]

    The recursion of the source is unbounded; [fuel] bounds the depth of
    the evaluation, [OutOfFuel] meaning that the bound was reached.  The
    parent span only determines nesting, which the event log records. *)
Fixpoint log_child_span (fuel : nat) (tree : gmap string nat)
    (children : gmap string (list string)) (node_id : string) : M unit :=
  match fuel with
  | O => raise OutOfFuel
  | S f =>
      pr <- lookup_row tree node_id ;;
      let child_row := snd pr in
      emit (EOpen node_id (span_name child_row)) ;;;
      emit (EAttach node_id None) ;;;
      for_each (log_child_span f tree children) (children_get children (span_id child_row)) ;;;
      emit (EClose node_id)
  end.

(** One root of the Braintrust replay loop (lines 189-199). *)
Definition replay_root_bt (fuel : nat) (tree : gmap string nat)
    (children : gmap string (list string)) (root : string) : M unit :=
  pr <- lookup_row tree root ;;
  let '(pos, row) := pr in
  emit (EOpen root ROOT_SPAN_NAME) ;;;
  (* row["metadata"]["model"] = DEFAULT_MODEL *)
  let row' := with_metadata row (<["model" := DEFAULT_MODEL]> (metadata row)) in
  set_row pos row' ;;;
  emit (EAttach root (Some (metadata row'))) ;;;
  for_each (log_child_span fuel tree children) (children_get children (span_id row')) ;;;
  emit (EClose root).

(** [args.batch_size and (idx + 1) % args.batch_size == 0] *)
Definition flush_due (batch_size : option Z) (idx : nat) : bool :=
  match batch_size with
  | None => false
  | Some b => negb (b =? 0) && ((Z.of_nat idx + 1) mod b =? 0)
  end.

(** [for idx, root in enumerate(roots): ...] *)
Fixpoint replay_roots_bt (fuel : nat) (tree : gmap string nat)
    (children : gmap string (list string)) (batch_size : option Z)
    (idx : nat) (roots : list string) : M unit :=
  match roots with
  | [] => ret tt
  | root :: rest =>
      replay_root_bt fuel tree children root ;;;
      (if flush_due batch_size idx then emit EFlush else ret tt) ;;;
      replay_roots_bt fuel tree children batch_size (S idx) rest
  end.

Fixpoint iterations_bt (fuel : nat) (tree : gmap string nat)
    (children : gmap string (list string)) (batch_size : option Z)
    (n : nat) (roots : list string) : M unit :=
  match n with
  | O => ret tt
  | S n' =>
      replay_roots_bt fuel tree children batch_size 0 roots ;;;
      iterations_bt fuel tree children batch_size n' roots
  end.

(** Lines 186-210: the iterations, then one [bt_logger.flush()]. *)
Definition replay_bt (fuel : nat) (tree : gmap string nat)
    (children : gmap string (list string)) (batch_size : option Z)
    (iterations : Z) (roots : list string) : M unit :=
  iterations_bt fuel tree children batch_size (Z.to_nat iterations) roots ;;;
  emit EFlush.

(** *** load_langsmith.py: [log_child_run]

    [create_child(name, inputs=..., outputs=...)] opens the run with its
    payloads; [child.end(); child.post()] closes it. *)
Fixpoint log_child_run (fuel : nat) (tree : gmap string nat)
    (children : gmap string (list string)) (node_id : string) : M unit :=
  match fuel with
  | O => raise OutOfFuel
  | S f =>
      pr <- lookup_row tree node_id ;;
      let child_row := snd pr in
      emit (EOpen node_id (span_name child_row)) ;;;
      emit (EAttach node_id None) ;;;
      for_each (log_child_run f tree children) (children_get children (span_id child_row)) ;;;
      emit (EClose node_id)
  end.

(** One root of the LangSmith replay loop (lines 185-200): metadata is
    passed as it is. *)
Definition replay_root_ls (fuel : nat) (tree : gmap string nat)
    (children : gmap string (list string)) (root : string) : M unit :=
  pr <- lookup_row tree root ;;
  let row := snd pr in
  emit (EOpen root ROOT_RUN_NAME) ;;;
  emit (EAttach root (Some (metadata row))) ;;;
  for_each (log_child_run fuel tree children) (children_get children (span_id row)) ;;;
  emit (EClose root).

Fixpoint replay_roots_ls (fuel : nat) (tree : gmap string nat)
    (children : gmap string (list string)) (batch_size : option Z)
    (idx : nat) (roots : list string) : M unit :=
  match roots with
  | [] => ret tt
  | root :: rest =>
      replay_root_ls fuel tree children root ;;;
      (if flush_due batch_size idx then emit EFlush else ret tt) ;;;
      replay_roots_ls fuel tree children batch_size (S idx) rest
  end.

(** Lines 181-211: each iteration ends with [client.flush()]. *)
Fixpoint iterations_ls (fuel : nat) (tree : gmap string nat)
    (children : gmap string (list string)) (batch_size : option Z)
    (n : nat) (roots : list string) : M unit :=
  match n with
  | O => ret tt
  | S n' =>
      replay_roots_ls fuel tree children batch_size 0 roots ;;;
      emit EFlush ;;;
      iterations_ls fuel tree children batch_size n' roots
  end.

Definition replay_ls (fuel : nat) (tree : gmap string nat)
    (children : gmap string (list string)) (batch_size : option Z)
    (iterations : Z) (roots : list string) : M unit :=
  iterations_ls fuel tree children batch_size (Z.to_nat iterations) roots.

(** ** JSONL parsing (both scripts, identical loops)

    [json.loads] is an external parser: a decoder returning [None] where
    it raises [JSONDecodeError].  A line is "consumed" when it passes the
    limit check and is handed to the decoder; [consumed] records those
    lines, in order. *)

Record parse_out (J : Type) := mk_parse_out {
  parsed_rows : list J;
  warnings : list nat;         (* 1-based numbers of the skipped lines *)
  consumed : list string
}.
Arguments mk_parse_out {J}.
Arguments parsed_rows {J}.
Arguments warnings {J}.
Arguments consumed {J}.

(** [if args.limit and i >= args.limit: break] *)
Definition limit_reached (limit : option Z) (i : nat) : bool :=
  match limit with
  | None => false
  | Some l => negb (l =? 0) && (l <=? Z.of_nat i)
  end.

Section Parsing.
Context {J : Type}.
Variable json_loads : string -> option J.

(** [for i, line in enumerate(f): ...] *)
Fixpoint parse_lines (limit : option Z) (i : nat) (lines : list string) (acc : parse_out J)
    : parse_out J :=
  match lines with
  | [] => acc
  | line :: rest =>
      if limit_reached limit i then acc
      else
        let acc := mk_parse_out (parsed_rows acc) (warnings acc) (consumed acc ++ [line]) in
        match json_loads line with
        | Some row =>
            parse_lines limit (S i) rest
              (mk_parse_out (parsed_rows acc ++ [row]) (warnings acc) (consumed acc))
        | None =>
            (* logger.warning(f"Skipping malformed JSON on line {i + 1}: {e}") *)
            parse_lines limit (S i) rest
              (mk_parse_out (parsed_rows acc) (warnings acc ++ [S i]) (consumed acc))
        end
  end.

(** [with open(TRACE_FILE, "r") as f: ...]; [file] is [None] when
    opening or reading the file raises [OSError], which is re-raised. *)
Definition parse_file (limit : option Z) (file : option (list string)) : exn + parse_out J :=
  match file with
  | None => inl OSError
  | Some lines => inr (parse_lines limit 0 lines (mk_parse_out [] [] []))
  end.

(** A line [json.loads] rejects. *)
Definition malformed (line : string) : bool :=
  match json_loads line with None => true | Some _ => false end.
End Parsing.

(** ** Start-up sequence, up to the first access to the trace file or the backend *)

Inductive io :=
| IOLoadDotenv                (* load_dotenv(): reads a .env file *)
| IOPathExists (path : string) (* os.path.exists(TRACE_FILE) *)
| IOLogin                     (* braintrust.login(): contacts the backend *)
| IOOpen (path : string).     (* open(TRACE_FILE, "r") *)

Inductive startup_result :=
| Exit (code : Z)    (* sys.exit(1) / parser.error(...) exits with status 2 *)
| Proceed.           (* the run goes on past the last recorded I/O *)

Record cli_args := mk_args {
  flatten : bool;
  iterations : Z;
  limit : option Z;
  batch_size : option Z
}.

Definition TRACE_FILE : string := "data/big_traces.jsonl".

(** [# Validate arguments]: the three [parser.error] checks. *)
Definition args_valid (a : cli_args) : bool :=
  (1 <=? iterations a)
  && match limit a with Some l => 1 <=? l | None => true end
  && match batch_size a with Some b => 1 <=? b | None => true end.

(** load_braintrust.py, lines 85-134. *)
Definition startup_bt (trace_exists : bool) (a : cli_args) : list io * startup_result :=
  let pre := [IOLoadDotenv; IOPathExists TRACE_FILE] in
  if negb trace_exists then (pre, Exit 1)
  else if negb (args_valid a) then (pre, Exit 2)
  else (pre ++ [IOLogin], Proceed).

(** load_langsmith.py, lines 84-142 (setting os.environ is not I/O). *)
Definition startup_ls (trace_exists : bool) (a : cli_args) : list io * startup_result :=
  let pre := [IOLoadDotenv; IOPathExists TRACE_FILE] in
  if negb trace_exists then (pre, Exit 1)
  else if negb (args_valid a) then (pre, Exit 2)
  else (pre ++ [IOOpen TRACE_FILE], Proceed).

(** ** Whole runs: indexing followed by the replay

    [tree] is built from the rows before indexing (line 161/156); the
    indexing loop then mutates the same row objects. *)

Definition run_bt (fuel : nat) (a : cli_args) (rows : list span_row) : exn + (unit * state) :=
  match index_bt (flatten a) rows with
  | inl e => inl e
  | inr (rows', children, roots) =>
      replay_bt fuel (build_tree rows) children (batch_size a) (iterations a) roots
        (mk_state rows' [])
  end.

Definition run_ls (fuel : nat) (a : cli_args) (rows : list span_row) : exn + (unit * state) :=
  match index_ls (flatten a) rows with
  | inl e => inl e
  | inr (rows', children, roots) =>
      replay_ls fuel (build_tree rows) children (batch_size a) (iterations a) roots
        (mk_state rows' [])
  end.

(** ** Vocabulary of the specification

    The following definitions follow the words of the specification; they
    are compared with the definitions above in the theorems below. *)

(** A record is a root iff the hierarchy is flattened or it declares no
    parent. *)
Definition is_root (flat : bool) (r : span_row) : bool :=
  flat || match span_parents r with SPList (_ :: _) => false | _ => true end.

(** The injection of the model tag into a row's metadata. *)
Definition tag_row (r : span_row) : span_row :=
  with_metadata r (<["model" := DEFAULT_MODEL]> (metadata r)).

(** Number of flushes in a log. *)
Fixpoint count_flush (evs : list event) : nat :=
  match evs with
  | [] => O
  | EFlush :: rest => S (count_flush rest)
  | _ :: rest => count_flush rest
  end.

(** Opening and closing boundaries of units of work. *)
Inductive mark := Opn (x : string) | Cls (x : string).

Fixpoint marks (evs : list event) : list mark :=
  match evs with
  | [] => []
  | EOpen x _ :: rest => Opn x :: marks rest
  | EClose x :: rest => Cls x :: marks rest
  | _ :: rest => marks rest
  end.

(** A tree of record ids; [dfs] is the depth-first order with pre-order
    open and post-order close. *)
Inductive rtree := RNode (label : string) (kids : list rtree).

Fixpoint dfs (t : rtree) : list mark :=
  match t with
  | RNode x ks => Opn x :: flat_map dfs ks ++ [Cls x]
  end.

Definition rlabel (t : rtree) : string := match t with RNode x _ => x end.

(** Induction over trees, with the hypothesis on every kid. *)
Fixpoint rtree_ind_all (P : rtree -> Prop)
    (H : forall x ks, Forall P ks -> P (RNode x ks)) (t : rtree) : P t :=
  match t with
  | RNode x ks =>
      H x ks ((fix go (ks : list rtree) : Forall P ks :=
                 match ks with
                 | [] => @List.Forall_nil _ P
                 | k :: ks' => @List.Forall_cons _ P k ks' (rtree_ind_all P H k) (go ks')
                 end) ks)
  end.

(** [t] is the tree of [children] below its label: each node's kids are,
    in order, the ids registered under the node's [span_id].  [sids] gives
    the [span_id] of each row object. *)
Fixpoint shaped (sids : list string) (tree : gmap string nat)
    (children : gmap string (list string)) (t : rtree) : Prop :=
  match t with
  | RNode x ks =>
      (exists p sid, tree !! x = Some p /\ sids !! p = Some sid /\
                     map rlabel ks = children_get children sid)
      /\ (fix all (ks : list rtree) : Prop :=
            match ks with [] => True | k :: ks' => shaped sids tree children k /\ all ks' end) ks
  end.

(** Parent-to-child edges: from a record id to the ids registered under
    its row's [span_id]. *)
Definition edge (sids : list string) (tree : gmap string nat)
    (children : gmap string (list string)) (x y : string) : Prop :=
  exists p sid, tree !! x = Some p /\ sids !! p = Some sid /\ y ∈ children_get children sid.

Definition acyclic (sids : list string) (tree : gmap string nat)
    (children : gmap string (list string)) : Prop :=
  forall x, ~ clos_trans string (edge sids tree children) x x.

(** A chain of edges starting at [x] and visiting [l]. *)
Fixpoint is_path (R : string -> string -> Prop) (x : string) (l : list string) : Prop :=
  match l with
  | [] => True
  | y :: rest => R x y /\ is_path R y rest
  end.

(** All ids registered in [children]. *)
Definition child_ids (children : gmap string (list string)) : list string :=
  flat_map snd (map_to_list children).

(** ** Auxiliary definitions for the proofs *)

(** A record without the [span_parents] key (which the input format
    allows: "optionally span_parents"). *)
Definition row_no_parents : span_row := mk_row "x" "x" SPAbsent "step" ∅.

(** The ids a record contributes to [children[p]]: once per occurrence of
    [p] among its parents when it is not a root. *)
Definition contrib (fl : bool) (p : string) (r : span_row) : list string :=
  if is_root fl r then []
  else match span_parents r with
       | SPList ps => map (fun _ => id r) (filter (fun q => q = p) ps)
       | _ => []
       end.

(** Deletions keep the fields other than [span_parents]. *)
Definition keeps_fields (d : span_row -> exn + span_row) : Prop :=
  forall r r', d r = inr r' ->
  id r' = id r /\ span_id r' = span_id r /\ metadata r' = metadata r.

Definition same_fields (r r' : span_row) : Prop :=
  id r' = id r /\ span_id r' = span_id r /\ metadata r' = metadata r.

(** A decoder for the examples: the line ["bad"] is malformed. *)
Definition demo_loads (line : string) : option string :=
  if decide (line = "bad") then None else Some line.

(** Metadata attached to root units, in log order. *)
Fixpoint root_attaches (evs : list event) : list (gmap string string) :=
  match evs with
  | [] => []
  | EAttach _ (Some md) :: rest => md :: root_attaches rest
  | _ :: rest => root_attaches rest
  end.

(** The root metadata attached in a log, each with the unit it is
    attached to. *)
Fixpoint root_units (evs : list event) : list (string * gmap string string) :=
  match evs with
  | [] => []
  | EAttach x (Some md) :: rest => (x, md) :: root_units rest
  | _ :: rest => root_units rest
  end.

(** Number of roots after which an interim flush is due, among the roots
    with (0-based) positions [idx .. idx + n - 1]. *)
Definition due_count (batch_size : option Z) (idx n : nat) : nat :=
  length (List.filter (flush_due batch_size) (seq idx n)).

(** The row object at position [p] is the row of some root. *)
Definition touched (tree : gmap string nat) (roots : list string) (p : nat) : bool :=
  existsb (fun r => bool_decide (tree !! r = Some p)) roots.

(** Outcome of a successful emission of one child unit: the row store is
    unchanged, the new events are the depth-first order of a tree shaped
    by [children], without flush and without root metadata. *)
Definition child_ok (tree : gmap string nat) (children : gmap string (list string))
    (x : string) (s s' : state) : Prop :=
  st_rows s' = st_rows s /\
  exists t new, rlabel t = x /\ shaped (span_id <$> st_rows s) tree children t
    /\ st_log s' = st_log s ++ new /\ marks new = dfs t
    /\ count_flush new = O /\ root_attaches new = [].

(** The example of the specification: A (root, [span_id=a]), B
    ([span_parents=[a]], [span_id=b]), C ([span_parents=[b]], [span_id=c]).
    A carries an empty parent list (see [hierarchy_absent_parents] for a
    record without the key). *)
Definition demo_rows : list span_row :=
  [mk_row "A" "a" (SPList []) "root" ∅;
   mk_row "B" "b" (SPList ["a"]) "step_b" ∅;
   mk_row "C" "c" (SPList ["b"]) "step_c" ∅].

Definition demo_index : list span_row * gmap string (list string) * list string :=
  match index_bt false demo_rows with inr res => res | inl _ => ([], ∅, []) end.

Definition demo_store : state := mk_state demo_index.1.1 [].

(** Events of one pass over the roots: the events of each root, then a
    flush when one is due after the root at that (0-based) position. *)
Fixpoint pass_log (batch_size : option Z) (idx : nat) (pieces : list (list event))
  : list event :=
  match pieces with
  | [] => []
  | piece :: rest =>
      piece ++ (if flush_due batch_size idx then [EFlush] else [])
      ++ pass_log batch_size (S idx) rest
  end.

(** The log of one iteration over [K] roots with batch size [B]: the
    events of each root, none of them a flush, each followed by a flush
    exactly when the number of roots replayed so far is a multiple of [B];
    in all, floor(K/B) flushes. *)
Definition iteration_log (B : Z) (K : nat) (it : list event) : Prop :=
  exists pieces, length pieces = K /\ Forall (fun piece => count_flush piece = O) pieces
    /\ it = pass_log (Some B) 0 pieces /\ count_flush it = Z.to_nat (Z.of_nat K / B).

(** The model tag is set to the default model. *)
Definition model_tagged (md : gmap string string) : Prop :=
  md !! "model" = Some DEFAULT_MODEL.

(** [m] runs alike from two states whose rows look the same through
    [view]: when it succeeds from the first, it succeeds from the second,
    appends the same events to both logs and leaves rows that still look
    the same. *)
Definition log_frame (view : span_row -> span_row) (m : M unit) : Prop :=
  forall s1 s2 s1', view <$> st_rows s1 = view <$> st_rows s2 -> m s1 = inr (tt, s1') ->
  exists s2' new, m s2 = inr (tt, s2') /\ view <$> st_rows s1' = view <$> st_rows s2'
    /\ st_log s1' = st_log s1 ++ new /\ st_log s2' = st_log s2 ++ new.

(** ** prepare_data.py: [download_and_extract_traces]

    The file system is a map from paths to contents.  The network and the
    decompressor are external: the response is given by the results of
    its successive [read(CHUNK_SIZE)] calls, a chunk or the exception the
    call raises, and [gzip.open(...).read(...)] by such results for the
    compressed data; a result list that ends stands for [b""] ever after.
    [net] is [inl e] when [urlopen] or the reading of the
    [Content-Length] header raises [e].  Which calls of the [os] module and
    of [open] raise [OSError] is given by the oracle [fails]: for instance
    [os.makedirs] raises when a regular file named [data] exists. *)

Inductive pexn :=
| PURLError      (* urllib.error.URLError, HTTPError included *)
| POSError       (* OSError from a file operation *)
| PGzipError     (* gzip.BadGzipFile, EOFError: truncated or bad data *)
| PInterrupt.    (* KeyboardInterrupt: a BaseException, not an Exception *)

(** [except Exception] catches all of them but the interrupt. *)
Definition is_exception (e : pexn) : bool :=
  match e with PInterrupt => false | _ => true end.

(** The file-system calls that may raise [OSError]. *)
Inductive os_call :=
| OMakedirs                          (* os.makedirs(DATA_DIR, exist_ok=True) *)
| OOpenWrite (path : string)         (* open(path, "wb") *)
| OOpenRead (path : string)          (* gzip.open(path, "rb") *)
| OWrite (path : string) (k : nat)   (* the [k]-th (0-based) write to [path] *)
| OClose (path : string)             (* closing [path], flushing its buffer *)
| OGetsize (path : string)           (* os.path.getsize(path) *)
| ORemove (path : string).           (* os.remove(path) *)

Abbreviation fsys := (gmap string (list Byte.byte)).

Definition COMPRESSED_FILE : string := "data/big_traces.jsonl.gz".

Section Download.
Variable fails : os_call -> bool.

(** [while True: chunk = src.read(N); if not chunk: break; dst.write(chunk)]
    into the file [dst], opened before the loop; [k] counts the writes. *)
Fixpoint copy_chunks (dst : string) (k : nat) (rs : list (pexn + list Byte.byte)) (fs : fsys)
    : (pexn * fsys) + fsys :=
  match rs with
  | [] => inr fs
  | inl e :: _ => inl (e, fs)
  | inr [] :: _ => inr fs
  | inr chunk :: rest =>
      if fails (OWrite dst k) then inl (POSError, fs)
      else copy_chunks dst (S k) rest (<[dst := default [] (fs !! dst) ++ chunk]> fs)
  end.

(** [with open(dst, "wb") as f: <copy loop>]: opening creates or empties
    the file; leaving the block closes it. *)
Definition write_file (dst : string) (rs : list (pexn + list Byte.byte)) (fs : fsys)
    : (pexn * fsys) + fsys :=
  if fails (OOpenWrite dst) then inl (POSError, fs)
  else match copy_chunks dst 0 rs (<[dst := []]> fs) with
       | inl err => inl err
       | inr fs' => if fails (OClose dst) then inl (POSError, fs') else inr fs'
       end.

(** The body of the [try] block (lines 55-101); an exception carries the
    file system at the point it was raised. *)
Definition try_download (net : pexn + list (pexn + list Byte.byte))
    (gunzip : list Byte.byte -> list (pexn + list Byte.byte)) (fs : fsys)
    : (pexn * fsys) + fsys :=
  if fails OMakedirs then inl (POSError, fs) else
  match net with
  | inl e => inl (e, fs)                       (* urlopen(DOWNLOAD_URL, timeout=30) *)
  | inr rs =>
      match write_file COMPRESSED_FILE rs fs with
      | inl err => inl err
      | inr fs2 =>
          if fails (OGetsize COMPRESSED_FILE) then inl (POSError, fs2) else
          (* with gzip.open(COMPRESSED_FILE, "rb") as f_in:
               with open(TRACE_FILE, "wb") as f_out: ... *)
          if fails (OOpenRead COMPRESSED_FILE) then inl (POSError, fs2) else
          match write_file TRACE_FILE (gunzip (default [] (fs2 !! COMPRESSED_FILE))) fs2 with
          | inl err => inl err
          | inr fs4 =>
              if fails (OGetsize TRACE_FILE) then inl (POSError, fs4) else
              if fails (ORemove COMPRESSED_FILE) then inl (POSError, fs4)
              else inr (delete COMPRESSED_FILE fs4)      (* os.remove(COMPRESSED_FILE) *)
          end
      end
  end.

(** [if os.path.exists(partial_file): try: os.remove(partial_file) except OSError: pass] *)
Definition remove_partial (fs : fsys) (f : string) : fsys :=
  if bool_decide (is_Some (fs !! f)) then (if fails (ORemove f) then fs else delete f fs) else fs.

Definition cleanup (fs : fsys) : fsys :=
  fold_left remove_partial [COMPRESSED_FILE; TRACE_FILE] fs.
End Download.

(** How a call ends: it returns, [sys.exit(code)] is called, or an
    exception propagates. *)
Inductive outcome :=
| Returned (fs : fsys)
| Exited (code : Z) (fs : fsys)
| Raised (e : pexn) (fs : fsys).

Definition download_and_extract_traces (fails : os_call -> bool)
    (net : pexn + list (pexn + list Byte.byte))
    (gunzip : list Byte.byte -> list (pexn + list Byte.byte)) (fs : fsys) : outcome :=
  if bool_decide (is_Some (fs !! TRACE_FILE)) then
    (* os.path.getsize(TRACE_FILE), outside the try block *)
    if fails (OGetsize TRACE_FILE) then Raised POSError fs else Returned fs
  else
    match try_download fails net gunzip fs with
    | inr fs' => Returned fs'
    | inl (PURLError, fs') => Exited 1 (cleanup fails fs')     (* except URLError *)
    | inl (e, fs') =>
        if is_exception e then Exited 1 (cleanup fails fs')    (* except Exception *)
        else Raised e fs'
    end.


(** * Tree indexing *)

(** The two deletions agree on rows that carry the key. *)
Lemma del_parents_agree (r : span_row) :
  span_parents r <> SPAbsent -> del_parents_bt r = del_parents_ls r.
Proof. unfold del_parents_bt, del_parents_ls. destruct (span_parents r); congruence. Qed.

Lemma index_loop_agree (fl : bool) (rows : list span_row) :
  Forall (fun r => span_parents r <> SPAbsent) rows ->
  forall children roots,
  index_loop del_parents_bt fl rows children roots
  = index_loop del_parents_ls fl rows children roots.
Proof.
  induction 1 as [|r rows Hr Hrows IH]; intros children roots; simpl; [done|].
  destruct (child_branch fl r) as [e|[ps|]]; [done| |].
  - by rewrite IH.
  - rewrite (del_parents_agree r Hr). destruct (del_parents_ls r); [done|].
    by rewrite IH.
Qed.

(** [C10] When every parsed record carries a [span_parents] key, the
    indexing of load_braintrust.py and that of load_langsmith.py compute
    the same result (mutated rows, [children] and [roots]), with or
    without flattening. *)
Theorem index_bt_eq_index_ls (fl : bool) (rows : list span_row) :
  Forall (fun r => span_parents r <> SPAbsent) rows ->
  index_bt fl rows = index_ls fl rows.
Proof. intros H. apply index_loop_agree, H. Qed.

(** In flatten mode the LangSmith indexing makes every record a root, in
    input order, and registers no child. *)
Lemma index_ls_flatten (rows : list span_row) :
  forall children roots,
  index_loop del_parents_ls true rows children roots
  = inr (map (fun r => match span_parents r with SPAbsent => r | _ => without_parents r end) rows,
         children, roots ++ map id rows).
Proof.
  induction rows as [|r rows IH]; intros children roots; simpl.
  - by rewrite app_nil_r.
  - unfold del_parents_ls. rewrite IH, <- app_assoc.
    destruct (span_parents r); reflexivity.
Qed.

(** In flatten mode the Braintrust indexing does the same when every
    record carries the key. *)
Lemma index_bt_flatten (rows : list span_row) :
  Forall (fun r => span_parents r <> SPAbsent) rows ->
  index_bt true rows = inr (map without_parents rows, ∅, map id rows).
Proof.
  intros H. rewrite index_bt_eq_index_ls by done. unfold index_ls.
  rewrite index_ls_flatten. f_equal. f_equal. f_equal.
  apply map_ext_in. intros r Hr. rewrite Forall_forall in H.
  specialize (H r (proj2 (list_elem_of_In _ _) Hr)). destruct (span_parents r); congruence.
Qed.

(** [C5] In flatten mode, load_braintrust.py raises [KeyError] on a
    record without a [span_parents] key (its [del row["span_parents"]] is
    unguarded), while load_langsmith.py makes it the only root with an
    empty [children] mapping. *)
Theorem flatten_absent_parents :
  index_bt true [row_no_parents] = inl KeyError
  /\ index_ls true [row_no_parents] = inr ([row_no_parents], ∅, ["x"]).
Proof. split; reflexivity. Qed.

(** [C3] With [flatten=false], both scripts raise [KeyError] on a record
    without a [span_parents] key (the condition reads [row["span_parents"]])
    instead of making it a root. *)
Theorem hierarchy_absent_parents :
  index_bt false [row_no_parents] = inl KeyError
  /\ index_ls false [row_no_parents] = inl KeyError.
Proof. split; reflexivity. Qed.

(** ** What a successful indexing computes *)

Lemma register_child_get (rid : string) (ps : list string) :
  forall (children : gmap string (list string)) (p : string),
  children_get (foldl (register_child rid) children ps) p
  = children_get children p ++ map (fun _ => rid) (filter (fun q => q = p) ps).
Proof.
  induction ps as [|q ps IH]; intros children p; simpl.
  - by rewrite app_nil_r.
  - rewrite IH. unfold children_get, register_child at 1.
    rewrite filter_cons. destruct (decide (q = p)) as [->|Hne].
    + rewrite lookup_insert_eq. simpl. by rewrite <- app_assoc.
    + rewrite lookup_insert_ne by done. done.
Qed.

Lemma del_parents_bt_keeps : keeps_fields del_parents_bt.
Proof. intros r r'. unfold del_parents_bt. destruct (span_parents r); intros [= <-]; done. Qed.

Lemma del_parents_ls_keeps : keeps_fields del_parents_ls.
Proof. intros r r'. unfold del_parents_ls. destruct (span_parents r); intros [= <-]; done. Qed.

Lemma index_loop_spec (d : span_row -> exn + span_row) (fl : bool) :
  keeps_fields d ->
  forall rows children roots rows' children' roots',
  index_loop d fl rows children roots = inr (rows', children', roots') ->
  roots' = roots ++ map id (filter (fun r => is_root fl r = true) rows)
  /\ (forall p, children_get children' p
                = children_get children p ++ flat_map (contrib fl p) rows)
  /\ Forall2 same_fields rows rows'.
Proof.
  intros Hd. induction rows as [|r rows IH];
    intros children roots rows' children' roots' Hix; simpl in Hix.
  - injection Hix as <- <- <-. simpl.
    split; [by rewrite app_nil_r|split; [intros; by rewrite app_nil_r|constructor]].
  - unfold child_branch in Hix.
    destruct fl eqn:Hfl.
    + (* flatten: every record is a root *)
      destruct (d r) as [e|r0] eqn:Hdr; [done|].
      destruct (index_loop d true rows children (roots ++ [id r]))
        as [e|[[rows0 c0] r1]] eqn:Hrec; [done|].
      injection Hix as <- <- <-.
      destruct (IH _ _ _ _ _ Hrec) as (Hroots & Hch & Hf).
      split; [|split].
      * rewrite Hroots, filter_cons. simpl. by rewrite <- app_assoc.
      * intros p. rewrite Hch. unfold contrib at 1. simpl. done.
      * constructor; [|done]. destruct (Hd _ _ Hdr) as (? & ? & ?). unfold same_fields; auto.
    + destruct (span_parents r) as [| |ps] eqn:Hsp; [done| |].
      * (* null: a root *)
        destruct (d r) as [e|r0] eqn:Hdr; [done|].
        destruct (index_loop d false rows children (roots ++ [id r]))
          as [e|[[rows0 c0] r1]] eqn:Hrec; [done|].
        injection Hix as <- <- <-.
        destruct (IH _ _ _ _ _ Hrec) as (Hroots & Hch & Hf).
        assert (Hroot : is_root false r = true) by (unfold is_root; by rewrite Hsp).
        split; [|split].
        -- rewrite Hroots, filter_cons, decide_True by done. simpl. by rewrite <- app_assoc.
        -- intros p. rewrite Hch. cbn [flat_map].
           assert (contrib false p r = []) as -> by (unfold contrib; by rewrite Hroot). done.
        -- constructor; [|done]. destruct (Hd _ _ Hdr) as (? & ? & ?). unfold same_fields; auto.
      * destruct ps as [|q ps].
        -- (* empty list: a root *)
           destruct (d r) as [e|r0] eqn:Hdr; [done|].
           destruct (index_loop d false rows children (roots ++ [id r]))
             as [e|[[rows0 c0] r1]] eqn:Hrec; [done|].
           injection Hix as <- <- <-.
           destruct (IH _ _ _ _ _ Hrec) as (Hroots & Hch & Hf).
           assert (Hroot : is_root false r = true) by (unfold is_root; by rewrite Hsp).
           split; [|split].
           ++ rewrite Hroots, filter_cons, decide_True by done. simpl. by rewrite <- app_assoc.
           ++ intros p. rewrite Hch. cbn [flat_map].
              assert (contrib false p r = []) as -> by (unfold contrib; by rewrite Hroot). done.
           ++ constructor; [|done]. destruct (Hd _ _ Hdr) as (? & ? & ?). unfold same_fields; auto.
        -- (* a child of each declared parent *)
           destruct (index_loop d false rows (foldl (register_child (id r)) children (q :: ps)) roots)
             as [e|[[rows0 c0] r1]] eqn:Hrec; [done|].
           injection Hix as <- <- <-.
           destruct (IH _ _ _ _ _ Hrec) as (Hroots & Hch & Hf).
           assert (Hroot : is_root false r = false) by (unfold is_root; by rewrite Hsp).
           split; [|split].
           ++ rewrite Hroots, filter_cons, decide_False by congruence. done.
           ++ intros p. rewrite Hch, register_child_get. cbn [flat_map].
              assert (contrib false p r
                      = map (fun _ => id r) (filter (fun q0 => q0 = p) (q :: ps))) as ->
                by (unfold contrib; by rewrite Hroot, Hsp).
              by rewrite <- app_assoc.
           ++ constructor; [by repeat split|done].
Qed.

Lemma NoDup_map_eq {A B} (f : A -> B) (l : list A) (x y : A) :
  NoDup (map f l) -> In x l -> In y l -> f x = f y -> x = y.
Proof.
  induction l as [|a l IH]; simpl; [done|].
  intros Hnd Hx Hy Hf. apply NoDup_cons in Hnd as [Hnin Hnd].
  destruct Hx as [<-|Hx], Hy as [<-|Hy]; try done.
  - exfalso. apply Hnin, list_elem_of_In. rewrite Hf. apply in_map, Hy.
  - exfalso. apply Hnin, list_elem_of_In. rewrite <- Hf. apply in_map, Hx.
  - by apply IH.
Qed.

(** With [flatten=false], for rows that all carry the key: a record with a
    non-empty parent list is registered under each of its parents, once
    per occurrence; with unique ids it is not a root; every other record
    is a root. *)
Lemma index_hierarchy (d : span_row -> exn + span_row) :
  keeps_fields d ->
  forall rows rows' children roots,
  index_loop d false rows ∅ [] = inr (rows', children, roots) ->
  (forall p, children_get children p = flat_map (contrib false p) rows)
  /\ (forall r q ps, In r rows -> span_parents r = SPList (q :: ps) ->
        (forall p, In p (q :: ps) -> In (id r) (children_get children p))
        /\ (NoDup (map id rows) -> ~ In (id r) roots))
  /\ (forall r, In r rows -> is_root false r = true -> In (id r) roots).
Proof.
  intros Hd rows rows' children roots Hix.
  destruct (index_loop_spec d false Hd _ _ _ _ _ _ Hix) as (Hroots & Hch & _).
  assert (Hch' : forall p, children_get children p = flat_map (contrib false p) rows)
    by (intros p; rewrite Hch; done).
  split; [done|split].
  - intros r q ps Hin Hsp.
    assert (Hnr : is_root false r = false) by (unfold is_root; by rewrite Hsp).
    split.
    + intros p Hp. rewrite Hch'. apply in_flat_map. exists r. split; [done|].
      unfold contrib. rewrite Hnr, Hsp. apply in_map_iff. exists p. split; [done|].
      apply list_elem_of_In, list_elem_of_filter. split; [done|]. by apply list_elem_of_In.
    + intros Hnd Hr. rewrite Hroots in Hr. simpl in Hr.
      apply in_map_iff in Hr as (r' & Hid & Hr').
      apply list_elem_of_In, list_elem_of_filter in Hr' as [Hroot' Hr'].
      apply list_elem_of_In in Hr'.
      assert (r' = r) as -> by (apply (NoDup_map_eq id rows); done).
      unfold is_root in Hnr. simpl in Hnr. congruence.
  - intros r Hin Hroot. rewrite Hroots. simpl. apply in_map.
    apply list_elem_of_In, list_elem_of_filter. split; [done|]. by apply list_elem_of_In.
Qed.

(** * Start-up *)

(** [C8] counterexample: with [--iterations 0], both scripts load the
    [.env] file and check that the trace file exists before rejecting the
    argument; when the trace file is missing they exit with status 1 on
    that check and never reach the validation. *)
Lemma startup_io_before_validation :
  let a := mk_args false 0 None None in
  startup_bt true a = ([IOLoadDotenv; IOPathExists TRACE_FILE], Exit 2)
  /\ startup_bt false a = ([IOLoadDotenv; IOPathExists TRACE_FILE], Exit 1)
  /\ startup_ls true a = ([IOLoadDotenv; IOPathExists TRACE_FILE], Exit 2)
  /\ startup_ls false a = ([IOLoadDotenv; IOPathExists TRACE_FILE], Exit 1).
Proof. repeat split. Qed.

Lemma args_valid_false (a : cli_args) :
  (iterations a < 1 \/ (exists l, limit a = Some l /\ l < 1)
   \/ (exists b, batch_size a = Some b /\ b < 1)) ->
  args_valid a = false.
Proof.
  unfold args_valid. intros [Hi|[(l & Hl & Hlt)|(b & Hb & Hlt)]].
  - replace (1 <=? iterations a) with false by lia. done.
  - rewrite Hl. replace (1 <=? l) with false by lia. by rewrite andb_false_r.
  - rewrite Hb. replace (1 <=? b) with false by lia. by rewrite andb_false_r.
Qed.

(** [C8] A non-positive [iterations], [limit] or [batch-size] makes both
    scripts exit before logging in to the backend and before opening the
    trace file: the only I/O performed is loading [.env] and checking that
    the trace file exists; the exit status is 2 (argument error) when the
    trace file exists and 1 (missing trace file) otherwise. *)
Theorem startup_rejects_invalid (trace_exists : bool) (a : cli_args) :
  (iterations a < 1 \/ (exists l, limit a = Some l /\ l < 1)
   \/ (exists b, batch_size a = Some b /\ b < 1)) ->
  startup_bt trace_exists a
    = ([IOLoadDotenv; IOPathExists TRACE_FILE], Exit (if trace_exists then 2 else 1))
  /\ startup_ls trace_exists a
    = ([IOLoadDotenv; IOPathExists TRACE_FILE], Exit (if trace_exists then 2 else 1)).
Proof.
  intros H. apply args_valid_false in H.
  unfold startup_bt, startup_ls. rewrite H. destruct trace_exists; done.
Qed.

Lemma startup_rejects_invalid_witness :
  startup_bt true (mk_args false 1 (Some 0) None)
    = ([IOLoadDotenv; IOPathExists TRACE_FILE], Exit 2)
  /\ startup_ls true (mk_args false 1 (Some 0) None)
    = ([IOLoadDotenv; IOPathExists TRACE_FILE], Exit 2).
Proof.
  apply (startup_rejects_invalid true (mk_args false 1 (Some 0) None)).
  right. left. exists 0. split; [reflexivity|lia].
Defined.

(** * JSONL parsing *)

Section ParsingProofs.
Context {J : Type}.
Variable json_loads : string -> option J.

Lemma parse_lines_prefix (limit : option Z) (lines : list string) :
  forall (n i : nat) (acc : parse_out J),
  (n <= length lines)%nat ->
  (forall k, (k < n)%nat -> limit_reached limit (i + k) = false) ->
  (n = length lines \/ limit_reached limit (i + n) = true) ->
  let out := parse_lines json_loads limit i lines acc in
  consumed out = consumed acc ++ take n lines
  /\ parsed_rows out = parsed_rows acc ++ omap json_loads (take n lines)
  /\ length (warnings out)
     = (length (warnings acc) + length (List.filter (malformed json_loads) (take n lines)))%nat.
Proof.
  induction lines as [|line rest IH]; intros n i acc Hn Hbefore Hstop; simpl.
  - assert (n = 0%nat) as -> by (simpl in Hn; lia). simpl.
    rewrite !app_nil_r. split; [done|split; [done|lia]].
  - destruct n as [|n].
    + destruct Hstop as [Hstop|Hstop]; [simpl in Hstop; lia|].
      rewrite Nat.add_0_r in Hstop. rewrite Hstop. simpl.
      rewrite !app_nil_r. split; [done|split; [done|lia]].
    + assert (Hi : limit_reached limit i = false)
        by (specialize (Hbefore 0%nat); rewrite Nat.add_0_r in Hbefore; apply Hbefore; lia).
      rewrite Hi. simpl in Hn.
      assert (Hb' : forall k, (k < n)%nat -> limit_reached limit (S i + k) = false)
        by (intros k Hk; replace (S i + k)%nat with (i + S k)%nat by lia; apply Hbefore; lia).
      assert (Hs' : n = length rest \/ limit_reached limit (S i + n) = true)
        by (destruct Hstop as [H|H]; [left; simpl in H; lia|right;
            replace (S i + n)%nat with (i + S n)%nat by lia; exact H]).
      unfold malformed at 1. simpl.
      destruct (json_loads line) as [row|] eqn:Hj.
      * destruct (IH n (S i) (mk_parse_out (parsed_rows acc ++ [row]) (warnings acc)
                                (consumed acc ++ [line])) ltac:(lia) Hb' Hs')
          as (H1 & H2 & H3).
        simpl in H1, H2, H3. rewrite H1, H2, H3.
        rewrite <- !app_assoc. split; [done|split; [done|reflexivity]].
      * destruct (IH n (S i) (mk_parse_out (parsed_rows acc) (warnings acc ++ [S i])
                                (consumed acc ++ [line])) ltac:(lia) Hb' Hs')
          as (H1 & H2 & H3).
        simpl in H1, H2, H3. rewrite H1, H2, H3.
        rewrite <- !app_assoc, length_app. unfold malformed in *. simpl.
        split; [done|split; [done|lia]].
Qed.

(** [C6] With a limit [1 <= L] (smaller values are rejected at start-up,
    see [startup_rejects_invalid]) and more than [L] input lines, exactly
    the first [L] lines are consumed, malformed or not: the parsed rows
    are the decodable lines among them and every other one of them
    yields a warning. *)
Theorem parse_limit_consumes_L (lines : list string) (L : Z) :
  1 <= L -> L < Z.of_nat (length lines) ->
  let out := parse_lines json_loads (Some L) 0 lines (mk_parse_out [] [] []) in
  consumed out = take (Z.to_nat L) lines
  /\ length (consumed out) = Z.to_nat L
  /\ parsed_rows out = omap json_loads (take (Z.to_nat L) lines)
  /\ length (warnings out) = length (List.filter (malformed json_loads) (take (Z.to_nat L) lines)).
Proof.
  intros H1 HL.
  destruct (parse_lines_prefix (Some L) lines (Z.to_nat L) 0 (mk_parse_out [] [] []))
    as (Hc & Hr & Hw).
  - lia.
  - intros k Hk. simpl. replace (L =? 0) with false by lia.
    replace (L <=? Z.of_nat k) with false by lia. done.
  - right. simpl. replace (L =? 0) with false by lia.
    rewrite Z2Nat.id by lia. rewrite Z.leb_refl. done.
  - simpl in Hc, Hr, Hw. cbn zeta. rewrite Hc, Hr, Hw.
    split; [done|split; [rewrite length_take; lia|split; done]].
Qed.

Lemma length_omap (l : list string) :
  length (omap json_loads l) = length (List.filter (fun x => negb (malformed json_loads x)) l).
Proof.
  induction l as [|x l IH]; [done|]. simpl. unfold malformed at 1.
  destruct (json_loads x); simpl; [f_equal|]; exact IH.
Qed.

(** [C7] Within the limit (no limit, or a limit at least the number of
    lines), parsing never fails: every line is consumed, each line the
    decoder accepts yields one parsed row and each line it rejects one
    warning; the only error is [OSError] when the file cannot be opened
    or read. *)
Theorem parse_tolerates_malformed (limit : option Z) (lines : list string) :
  (limit = None \/ exists L, limit = Some L /\ 1 <= L /\ Z.of_nat (length lines) <= L) ->
  (exists out,
    parse_file json_loads limit (Some lines) = inr out
    /\ consumed out = lines
    /\ length (parsed_rows out) = length (List.filter (fun x => negb (malformed json_loads x)) lines)
    /\ length (warnings out) = length (List.filter (malformed json_loads) lines))
  /\ (forall file e, parse_file json_loads limit file = inl e -> file = None /\ e = OSError).
Proof.
  intros Hlim. split.
  - eexists. split; [reflexivity|].
    destruct (parse_lines_prefix limit lines (length lines) 0 (mk_parse_out [] [] []))
      as (Hc & Hr & Hw).
    + lia.
    + intros k Hk. destruct Hlim as [->|(L & -> & H1 & HL)]; [done|].
      simpl. replace (L =? 0) with false by lia.
      replace (L <=? Z.of_nat k) with false by lia. done.
    + by left.
    + simpl in Hc, Hr, Hw. rewrite firstn_all in Hc, Hr, Hw.
      rewrite Hc, Hr, Hw, length_omap. done.
  - intros [lines'|] e; simpl; [done|]. intros [= <-]. done.
Qed.
End ParsingProofs.

Lemma parse_limit_consumes_L_witness :
  let out := parse_lines demo_loads (Some 2) 0 ["bad"; "a"; "b"] (mk_parse_out [] [] []) in
  consumed out = take 2 ["bad"; "a"; "b"]
  /\ length (consumed out) = 2%nat
  /\ parsed_rows out = omap demo_loads (take 2 ["bad"; "a"; "b"])
  /\ length (warnings out) = length (List.filter (malformed demo_loads) (take 2 ["bad"; "a"; "b"])).
Proof. apply (parse_limit_consumes_L demo_loads ["bad"; "a"; "b"] 2); simpl; lia. Defined.

Lemma parse_tolerates_malformed_witness :
  (exists out,
    parse_file demo_loads None (Some ["a"; "bad"; "b"]) = inr out
    /\ consumed out = ["a"; "bad"; "b"]
    /\ length (parsed_rows out)
       = length (List.filter (fun x => negb (malformed demo_loads x)) ["a"; "bad"; "b"])
    /\ length (warnings out) = length (List.filter (malformed demo_loads) ["a"; "bad"; "b"]))
  /\ (forall file e, parse_file demo_loads None file = inl e -> file = None /\ e = OSError).
Proof. apply (parse_tolerates_malformed demo_loads None ["a"; "bad"; "b"]). by left. Defined.

(** * Replay engine *)

(** ** Monad facts *)

Lemma bind_inr {A B} (m : M A) (k : A -> M B) (s : state) (b : B) (s' : state) :
  bind m k s = inr (b, s') -> exists a s1, m s = inr (a, s1) /\ k a s1 = inr (b, s').
Proof. unfold bind. destruct (m s) as [e|[a s1]]; [done|]. eauto. Qed.

Lemma bind_inl {A B} (m : M A) (k : A -> M B) (s : state) (e : exn) :
  bind m k s = inl e -> m s = inl e \/ exists a s1, m s = inr (a, s1) /\ k a s1 = inl e.
Proof. unfold bind. cbv beta. destruct (m s) as [e'|[a s1]]; intros H; [left; congruence|]. eauto. Qed.

Lemma emit_inr (ev : event) (s s' : state) (u : unit) :
  emit ev s = inr (u, s') -> s' = mk_state (st_rows s) (st_log s ++ [ev]).
Proof. unfold emit. by intros [= _ <-]. Qed.

Lemma lookup_row_inr (tree : gmap string nat) (x : string) (s s' : state) (p : nat) (row : span_row) :
  lookup_row tree x s = inr ((p, row), s') ->
  s' = s /\ tree !! x = Some p /\ st_rows s !! p = Some row.
Proof.
  unfold lookup_row. destruct (tree !! x) as [q|]; [|done].
  destruct (st_rows s !! q) as [r|] eqn:Hr; [|done]. by intros [= -> -> ->].
Qed.

(** Instantiate the final state of a concrete run by evaluating it. *)
Ltac run_exists :=
  match goal with
  | |- exists s', ?e = inr (tt, s') /\ _ =>
      let r := eval vm_compute in e in
      match r with inr (_, ?v) => exists v end
  end.

Ltac units := repeat match goal with u : unit |- _ => destruct u end.

Ltac inv_bind H :=
  let a := fresh "a" in let s := fresh "s" in let H1 := fresh "Hm" in
  apply bind_inr in H as (a & s & H1 & H).

Lemma marks_app (l1 l2 : list event) : marks (l1 ++ l2) = marks l1 ++ marks l2.
Proof. induction l1 as [|[] l1 IH]; simpl; rewrite ?IH; done. Qed.

Lemma count_flush_app (l1 l2 : list event) :
  count_flush (l1 ++ l2) = (count_flush l1 + count_flush l2)%nat.
Proof. induction l1 as [|[] l1 IH]; simpl; rewrite ?IH; done. Qed.

Lemma root_attaches_app (l1 l2 : list event) :
  root_attaches (l1 ++ l2) = root_attaches l1 ++ root_attaches l2.
Proof.
  induction l1 as [|ev l1 IH]; [done|].
  destruct ev as [? ?|? [md|]|?|]; simpl; rewrite IH; done.
Qed.

Lemma shaped_node (sids : list string) (tree : gmap string nat)
    (children : gmap string (list string)) (x : string) (ks : list rtree) :
  shaped sids tree children (RNode x ks)
  <-> (exists p sid, tree !! x = Some p /\ sids !! p = Some sid /\
                     map rlabel ks = children_get children sid)
      /\ Forall (shaped sids tree children) ks.
Proof.
  simpl. apply and_iff_compat_l. induction ks as [|k ks IH].
  - split; [constructor|done].
  - rewrite Forall_cons, <- IH. done.
Qed.

(** ** Iterating over the children *)

Lemma for_each_ok (f : string -> M unit) (tree : gmap string nat)
    (children : gmap string (list string)) :
  (forall x s s', f x s = inr (tt, s') -> child_ok tree children x s s') ->
  forall l s s', for_each f l s = inr (tt, s') ->
  st_rows s' = st_rows s /\
  exists ts new, map rlabel ts = l /\ Forall (shaped (span_id <$> st_rows s) tree children) ts
    /\ st_log s' = st_log s ++ new /\ marks new = flat_map dfs ts
    /\ count_flush new = O /\ root_attaches new = [].
Proof.
  intros Hf. induction l as [|x l IH]; intros s s' H; simpl in H.
  - injection H as <-. split; [done|]. exists [], []. rewrite app_nil_r. done.
  - inv_bind H. destruct a. destruct (Hf _ _ _ Hm) as (Hr1 & t & new1 & Hl1 & Hs1 & Hg1 & Hm1 & Hc1 & Ha1).
    destruct (IH _ _ H) as (Hr2 & ts & new2 & Hl2 & Hs2 & Hg2 & Hm2 & Hc2 & Ha2).
    split; [congruence|]. exists (t :: ts), (new1 ++ new2).
    rewrite Hr1 in Hs2. split; [simpl; congruence|]. split; [by constructor|].
    split; [rewrite Hg2, Hg1; by rewrite <- app_assoc|].
    rewrite marks_app, count_flush_app, root_attaches_app, Hm1, Hm2, Hc1, Hc2, Ha1, Ha2. done.
Qed.

(** A failing iteration fails at some element, reached from a state with
    the same row store. *)
Lemma for_each_inl (f : string -> M unit) (tree : gmap string nat)
    (children : gmap string (list string)) :
  (forall x s s', f x s = inr (tt, s') -> child_ok tree children x s s') ->
  forall l s e, for_each f l s = inl e ->
  exists x s1, In x l /\ st_rows s1 = st_rows s /\ f x s1 = inl e.
Proof.
  intros Hf. induction l as [|x l IH]; intros s e H; simpl in H; [done|].
  apply bind_inl in H as [H|(a & s1 & H1 & H2)].
  - exists x, s. simpl. auto.
  - destruct a. destruct (Hf _ _ _ H1) as (Hr1 & _).
    destruct (IH _ _ H2) as (y & s2 & Hy & Hr2 & Hfy).
    exists y, s2. simpl. split; [auto|]. split; [congruence|done].
Qed.

(** ** Emission of one child unit *)

Lemma log_child_span_ok (fuel : nat) (tree : gmap string nat)
    (children : gmap string (list string)) :
  forall x s s', log_child_span fuel tree children x s = inr (tt, s') ->
  child_ok tree children x s s'.
Proof.
  induction fuel as [|f IH]; intros x s s' H; simpl in H; [done|].
  inv_bind H. destruct a as [p row]. apply lookup_row_inr in Hm as (-> & Htr & Hrow).
  inv_bind H. apply emit_inr in Hm as ->.
  inv_bind H. apply emit_inr in Hm as ->.
  inv_bind H. units.
  destruct (for_each_ok _ tree children IH _ _ _ Hm)
    as (Hr & ts & new & Hl & Hs & Hg & Hmk & Hc & Ha).
  apply emit_inr in H as ->. simpl in *.
  split; [done|].
  exists (RNode x ts), ([EOpen x (span_name row); EAttach x None] ++ new ++ [EClose x]).
  split; [done|]. split.
  { apply shaped_node. split; [|done]. exists p, (span_id row).
    split; [done|]. split; [by rewrite list_lookup_fmap, Hrow|done]. }
  split; [rewrite Hg; by rewrite <- !app_assoc|].
  rewrite !marks_app, !count_flush_app, !root_attaches_app, Hmk, Hc, Ha. simpl.
  split; [done|]. split; [lia|done].
Qed.

Lemma for_each_ext (f g : string -> M unit) :
  (forall x s, f x s = g x s) -> forall l s, for_each f l s = for_each g l s.
Proof.
  intros Hfg. induction l as [|x l IH]; intros s; simpl; [done|].
  unfold bind. cbv beta. rewrite Hfg. destruct (g x s) as [e|[[] s1]]; [done|]. apply IH.
Qed.

(** The LangSmith emission of a child run makes the same calls as the
    Braintrust emission of a child span. *)
Lemma log_child_run_span (fuel : nat) (tree : gmap string nat)
    (children : gmap string (list string)) :
  forall x s, log_child_run fuel tree children x s = log_child_span fuel tree children x s.
Proof.
  induction fuel as [|f IH]; intros x s; simpl; [done|].
  unfold bind. destruct (lookup_row tree x s) as [e|[[p row] s1]]; [done|].
  simpl. rewrite (for_each_ext _ _ IH). done.
Qed.

(** ** Emission of one root *)

Lemma set_row_inr (p : nat) (row : span_row) (s s' : state) (u : unit) :
  set_row p row s = inr (u, s') -> s' = mk_state (<[p := row]> (st_rows s)) (st_log s).
Proof. unfold set_row. by intros [= _ <-]. Qed.

Lemma span_ids_tag (rows : list span_row) (p : nat) (row : span_row) :
  rows !! p = Some row -> span_id <$> <[p := tag_row row]> rows = span_id <$> rows.
Proof.
  intros Hrow. rewrite list_fmap_insert. apply list_insert_id.
  by rewrite list_lookup_fmap, Hrow.
Qed.

Lemma replay_root_bt_ok (fuel : nat) (tree : gmap string nat)
    (children : gmap string (list string)) (r : string) (s s' : state) :
  replay_root_bt fuel tree children r s = inr (tt, s') ->
  exists p row new t,
    tree !! r = Some p /\ st_rows s !! p = Some row
    /\ st_rows s' = <[p := tag_row row]> (st_rows s)
    /\ st_log s' = st_log s ++ new /\ count_flush new = O
    /\ root_attaches new = [metadata (tag_row row)]
    /\ rlabel t = r /\ shaped (span_id <$> st_rows s) tree children t /\ marks new = dfs t.
Proof.
  intros H. unfold replay_root_bt in H.
  inv_bind H. destruct a as [p row]. apply lookup_row_inr in Hm as (-> & Htr & Hrow).
  inv_bind H. apply emit_inr in Hm as ->.
  inv_bind H. apply set_row_inr in Hm as ->.
  inv_bind H. apply emit_inr in Hm as ->.
  inv_bind H. units.
  destruct (for_each_ok _ tree children (log_child_span_ok fuel tree children) _ _ _ Hm)
    as (Hr & ts & new & Hl & Hs & Hg & Hmk & Hc & Ha).
  apply emit_inr in H as ->. simpl in *.
  fold (tag_row row) in *. rewrite span_ids_tag in Hs by done.
  exists p, row,
    ([EOpen r ROOT_SPAN_NAME; EAttach r (Some (metadata (tag_row row)))] ++ new ++ [EClose r]),
    (RNode r ts).
  split; [done|]. split; [done|]. split; [done|].
  split; [rewrite Hg; by rewrite <- !app_assoc|].
  rewrite !count_flush_app, !root_attaches_app, !marks_app, Hc, Ha, Hmk. simpl.
  split; [lia|]. split; [done|]. split; [done|]. split; [|done].
  apply shaped_node. split; [|done]. exists p, (span_id row).
  split; [done|]. split; [by rewrite list_lookup_fmap, Hrow|done].
Qed.

Lemma replay_root_ls_ok (fuel : nat) (tree : gmap string nat)
    (children : gmap string (list string)) (r : string) (s s' : state) :
  replay_root_ls fuel tree children r s = inr (tt, s') ->
  exists p row new t,
    tree !! r = Some p /\ st_rows s !! p = Some row
    /\ st_rows s' = st_rows s
    /\ st_log s' = st_log s ++ new /\ count_flush new = O
    /\ root_attaches new = [metadata row]
    /\ rlabel t = r /\ shaped (span_id <$> st_rows s) tree children t /\ marks new = dfs t.
Proof.
  intros H. unfold replay_root_ls in H.
  inv_bind H. destruct a as [p row]. apply lookup_row_inr in Hm as (-> & Htr & Hrow).
  inv_bind H. apply emit_inr in Hm as ->.
  inv_bind H. apply emit_inr in Hm as ->.
  inv_bind H. units.
  rewrite (for_each_ext _ _ (log_child_run_span fuel tree children)) in Hm.
  destruct (for_each_ok _ tree children (log_child_span_ok fuel tree children) _ _ _ Hm)
    as (Hr & ts & new & Hl & Hs & Hg & Hmk & Hc & Ha).
  apply emit_inr in H as ->. simpl in *.
  exists p, row,
    ([EOpen r ROOT_RUN_NAME; EAttach r (Some (metadata row))] ++ new ++ [EClose r]),
    (RNode r ts).
  split; [done|]. split; [done|]. split; [done|].
  split; [rewrite Hg; by rewrite <- !app_assoc|].
  rewrite !count_flush_app, !root_attaches_app, !marks_app, Hc, Ha, Hmk. simpl.
  split; [lia|]. split; [done|]. split; [done|]. split; [|done].
  apply shaped_node. split; [|done]. exists p, (span_id row).
  split; [done|]. split; [by rewrite list_lookup_fmap, Hrow|done].
Qed.

(** [C4] Replaying one root emits its units depth-first: the boundaries
    of the emitted units are those of the depth-first traversal, pre-order
    open and post-order close, of a tree rooted at the root whose every
    node has as kids, in order, the ids registered under its [span_id]; so
    each child's open/close pair lies inside its parent's and siblings
    come in child order.  For the example of the specification
    (A -> B -> C), indexing gives roots [A] and children {a: [B], b: [C]},
    and both scripts emit open(A) open(B) open(C) close(C) close(B) close(A). *)
Theorem replay_depth_first :
  (forall fuel tree children root s s',
     replay_root_bt fuel tree children root s = inr (tt, s') ->
     exists t new, rlabel t = root /\ shaped (span_id <$> st_rows s) tree children t
       /\ st_log s' = st_log s ++ new /\ marks new = dfs t)
  /\ (forall fuel tree children root s s',
     replay_root_ls fuel tree children root s = inr (tt, s') ->
     exists t new, rlabel t = root /\ shaped (span_id <$> st_rows s) tree children t
       /\ st_log s' = st_log s ++ new /\ marks new = dfs t)
  /\ demo_index.2 = ["A"]
  /\ children_get demo_index.1.2 "a" = ["B"] /\ children_get demo_index.1.2 "b" = ["C"]
  /\ (forall x, x <> "a" -> x <> "b" -> children_get demo_index.1.2 x = [])
  /\ (exists s', replay_root_bt 3 (build_tree demo_rows) demo_index.1.2 "A" demo_store = inr (tt, s')
        /\ marks (st_log s') = [Opn "A"; Opn "B"; Opn "C"; Cls "C"; Cls "B"; Cls "A"])
  /\ (exists s', replay_root_ls 3 (build_tree demo_rows) demo_index.1.2 "A" demo_store = inr (tt, s')
        /\ marks (st_log s') = [Opn "A"; Opn "B"; Opn "C"; Cls "C"; Cls "B"; Cls "A"]).
Proof.
  split; [|split].
  - intros fuel tree children root s s' H.
    destruct (replay_root_bt_ok _ _ _ _ _ _ H) as (p & row & new & t & _ & _ & _ & Hg & _ & _ & Hl & Hs & Hm).
    eauto 10.
  - intros fuel tree children root s s' H.
    destruct (replay_root_ls_ok _ _ _ _ _ _ H) as (p & row & new & t & _ & _ & _ & Hg & _ & _ & Hl & Hs & Hm).
    eauto 10.
  - split; [reflexivity|]. split; [reflexivity|]. split; [reflexivity|].
    split.
    + intros x Ha Hb.
      assert (Hc : demo_index.1.2 = <["b" := ["C"]]> (<["a" := ["B"]]> ∅)) by reflexivity.
      unfold children_get. rewrite Hc, !lookup_insert_ne by congruence. done.
    + split; run_exists; split; vm_compute; reflexivity.
Qed.

Lemma replay_depth_first_witness :
  exists s', replay_root_bt 3 (build_tree demo_rows) demo_index.1.2 "A" demo_store = inr (tt, s')
    /\ exists t new, rlabel t = "A"
       /\ shaped (span_id <$> st_rows demo_store) (build_tree demo_rows) demo_index.1.2 t
       /\ st_log s' = st_log demo_store ++ new /\ marks new = dfs t.
Proof.
  run_exists. split; [vm_compute; reflexivity|].
  apply (proj1 replay_depth_first 3%nat (build_tree demo_rows) demo_index.1.2 "A" demo_store).
  reflexivity.
Defined.

(** ** Termination of the recursive emission *)

(** Running out of fuel [f] exhibits a chain of [f] parent-to-child edges. *)
Lemma log_child_span_out_of_fuel (tree : gmap string nat)
    (children : gmap string (list string)) (f : nat) :
  forall x s, log_child_span f tree children x s = inl OutOfFuel ->
  exists l, length l = f /\ is_path (edge (span_id <$> st_rows s) tree children) x l.
Proof.
  induction f as [|f IH]; intros x s H.
  - exists []. done.
  - simpl in H. apply bind_inl in H as [H|([p row] & s1 & Hl & H)].
    { unfold lookup_row in H. destruct (tree !! x); [|done].
      destruct (st_rows s !! n); done. }
    apply lookup_row_inr in Hl as (-> & Htr & Hrow).
    apply bind_inl in H as [H|(u1 & s2 & He1 & H)]; [done|].
    apply emit_inr in He1 as ->.
    apply bind_inl in H as [H|(u2 & s3 & He2 & H)]; [done|].
    apply emit_inr in He2 as ->.
    apply bind_inl in H as [H|(u3 & s4 & Hfe & H)]; [|done].
    destruct (for_each_inl _ tree children (log_child_span_ok f tree children) _ _ _ H)
      as (y & s5 & Hy & Hr5 & Hy5). simpl in Hr5.
    destruct (IH _ _ Hy5) as (l & Hlen & Hpath).
    exists (y :: l). split; [simpl; lia|]. split.
    + exists p, (span_id row). split; [done|]. split; [by rewrite list_lookup_fmap, Hrow|].
      by apply list_elem_of_In.
    + rewrite Hr5 in Hpath. exact Hpath.
Qed.

Lemma edge_target_child_id (sids : list string) (tree : gmap string nat)
    (children : gmap string (list string)) (x y : string) :
  edge sids tree children x y -> In y (child_ids children).
Proof.
  intros (p & sid & _ & _ & Hy). unfold children_get in Hy.
  destruct (children !! sid) as [l|] eqn:Hl; simpl in Hy; [|by apply not_elem_of_nil in Hy].
  unfold child_ids. apply in_flat_map. exists (sid, l). split.
  - apply list_elem_of_In, elem_of_map_to_list, Hl.
  - simpl. by apply list_elem_of_In.
Qed.

Lemma path_in_child_ids (sids : list string) (tree : gmap string nat)
    (children : gmap string (list string)) (l : list string) :
  forall x, is_path (edge sids tree children) x l -> incl l (child_ids children).
Proof.
  induction l as [|y l IH]; intros x Hp; simpl in Hp; [intros ? []|].
  destruct Hp as [He Hp]. intros z [<-|Hz].
  - eapply edge_target_child_id, He.
  - eapply IH; eauto.
Qed.

Lemma not_NoDup_split (l : list string) :
  ~ List.NoDup l -> exists a l1 l2 l3, l = l1 ++ a :: l2 ++ a :: l3.
Proof.
  induction l as [|a l IH]; intros Hnd.
  - exfalso. apply Hnd. constructor.
  - destruct (in_dec (fun u v => decide (u = v)) a l) as [Hin|Hnin].
    + apply in_split in Hin as (l2 & l3 & ->). by exists a, [], l2, l3.
    + destruct IH as (b & l1 & l2 & l3 & ->).
      * intros Hnd'. apply Hnd. by constructor.
      * by exists b, (a :: l1), l2, l3.
Qed.

Lemma is_path_app (R : string -> string -> Prop) (l1 : list string) :
  forall x a rest, is_path R x (l1 ++ a :: rest) -> is_path R a rest.
Proof.
  induction l1 as [|b l1 IH]; intros x a rest Hp; simpl in Hp.
  - apply Hp.
  - eapply IH, (proj2 Hp).
Qed.

Lemma is_path_clos_trans (R : string -> string -> Prop) (l : list string) :
  forall x y rest, is_path R x (l ++ y :: rest) -> clos_trans string R x y.
Proof.
  induction l as [|b l IH]; intros x y rest Hp; simpl in Hp.
  - apply t_step, (proj1 Hp).
  - destruct Hp as [Hxb Hp]. eapply t_trans; [apply t_step, Hxb|]. eapply IH, Hp.
Qed.

(** In an acyclic graph no chain of edges is longer than the number of
    registered child ids. *)
Lemma acyclic_path_bound (sids : list string) (tree : gmap string nat)
    (children : gmap string (list string)) :
  acyclic sids tree children ->
  forall x l, is_path (edge sids tree children) x l -> (length l <= length (child_ids children))%nat.
Proof.
  intros Hacy x l Hp.
  destruct (ListDec.NoDup_dec (fun u v => decide (u = v)) l) as [Hnd|Hnd].
  - apply NoDup_incl_length; [done|]. eapply path_in_child_ids, Hp.
  - exfalso. destruct (not_NoDup_split l Hnd) as (a & l1 & l2 & l3 & ->).
    apply is_path_app in Hp. apply (Hacy a).
    eapply (is_path_clos_trans _ l2 a a l3), Hp.
Qed.

(** A self-referencing record: [children["a"] = ["a"]]. *)
Lemma log_child_span_cycle (f : nat) :
  forall s, st_rows s = [mk_row "a" "a" (SPList ["a"]) "loop" ∅] ->
  log_child_span f {[ "a" := O ]} {[ "a" := ["a"] ]} "a" s = inl OutOfFuel.
Proof.
  induction f as [|f IH]; intros s Hs; [done|].
  simpl. unfold bind, lookup_row. rewrite lookup_singleton_eq, Hs. simpl.
  unfold children_get. rewrite lookup_singleton_eq. simpl.
  unfold bind. rewrite IH by done. done.
Qed.

Lemma log_child_span_bounded (tree : gmap string nat) (children : gmap string (list string))
    (sids : list string) :
  acyclic sids tree children ->
  forall x s, span_id <$> st_rows s = sids ->
  log_child_span (S (length (child_ids children))) tree children x s <> inl OutOfFuel.
Proof.
  intros Hacy x s Hs H.
  destruct (log_child_span_out_of_fuel _ _ _ _ _ H) as (l & Hlen & Hp).
  rewrite Hs in Hp. pose proof (acyclic_path_bound _ _ _ Hacy _ _ Hp). lia.
Qed.

(** A topological ranking proves acyclicity. *)
Lemma rank_acyclic (sids : list string) (tree : gmap string nat)
    (children : gmap string (list string)) (rank : string -> nat) :
  (forall x y, edge sids tree children x y -> (rank y < rank x)%nat) ->
  acyclic sids tree children.
Proof.
  intros Hr x Hc.
  assert (H : forall a b, clos_trans string (edge sids tree children) a b -> (rank b < rank a)%nat).
  { induction 1 as [a b Hab|a b c _ IH1 _ IH2]; [by apply Hr|lia]. }
  specialize (H _ _ Hc). lia.
Qed.

(** [C9] When the parent-to-child edges (from a record's id to the ids
    registered under its [span_id]) are acyclic, the recursive emission
    terminates from every node and for every root of both scripts: one
    evaluation bound (the number of registered child ids plus one) is
    never exhausted.  No cycle guard exists: on a record registered as its
    own child the emission never completes, whatever the bound. *)
Theorem emission_terminates_acyclic :
  (forall tree children s,
     acyclic (span_id <$> st_rows s) tree children ->
     exists fuel, forall x,
       log_child_span fuel tree children x s <> inl OutOfFuel
       /\ log_child_run fuel tree children x s <> inl OutOfFuel
       /\ replay_root_bt fuel tree children x s <> inl OutOfFuel
       /\ replay_root_ls fuel tree children x s <> inl OutOfFuel)
  /\ (forall fuel s, st_rows s = [mk_row "a" "a" (SPList ["a"]) "loop" ∅] ->
       log_child_span fuel {[ "a" := O ]} {[ "a" := ["a"] ]} "a" s = inl OutOfFuel).
Proof.
  split; [|intros; by apply log_child_span_cycle].
  intros tree children s Hacy. exists (S (length (child_ids children))). intros x.
  pose proof (log_child_span_bounded _ _ _ Hacy) as Hb.
  remember (S (length (child_ids children))) as N eqn:HN. clear HN.
  split; [|split; [|split]].
  - by apply Hb.
  - rewrite log_child_run_span. by apply Hb.
  - intros H. unfold replay_root_bt in H.
    apply bind_inl in H as [H|([p row] & s1 & Hl & H)].
    { unfold lookup_row in H. destruct (tree !! x); [|done].
      destruct (st_rows s !! n); done. }
    apply lookup_row_inr in Hl as (-> & Htr & Hrow). simpl in H.
    apply bind_inl in H as [H|(u1 & s2 & He & H)]; [done|]. apply emit_inr in He as ->.
    apply bind_inl in H as [H|(u2 & s3 & He & H)]; [done|]. apply set_row_inr in He as ->.
    apply bind_inl in H as [H|(u3 & s4 & He & H)]; [done|]. apply emit_inr in He as ->.
    apply bind_inl in H as [H|(u4 & s5 & Hfe & H)]; [|done].
    destruct (for_each_inl _ tree children (log_child_span_ok _ tree children) _ _ _ H)
      as (y & s6 & _ & Hr6 & Hy). simpl in Hr6.
    eapply Hb; [|exact Hy]. rewrite Hr6. fold (tag_row row). by apply span_ids_tag.
  - intros H. unfold replay_root_ls in H.
    apply bind_inl in H as [H|([p row] & s1 & Hl & H)].
    { unfold lookup_row in H. destruct (tree !! x); [|done].
      destruct (st_rows s !! n); done. }
    apply lookup_row_inr in Hl as (-> & Htr & Hrow). simpl in H.
    apply bind_inl in H as [H|(u1 & s2 & He & H)]; [done|]. apply emit_inr in He as ->.
    apply bind_inl in H as [H|(u2 & s3 & He & H)]; [done|]. apply emit_inr in He as ->.
    apply bind_inl in H as [H|(u4 & s5 & Hfe & H)]; [|done].
    rewrite (for_each_ext _ _ (log_child_run_span _ tree children)) in H.
    destruct (for_each_inl _ tree children (log_child_span_ok _ tree children) _ _ _ H)
      as (y & s6 & _ & Hr6 & Hy). simpl in Hr6.
    eapply Hb; [|exact Hy]. by rewrite Hr6.
Qed.

Lemma demo_acyclic :
  acyclic (span_id <$> st_rows demo_store) (build_tree demo_rows) demo_index.1.2.
Proof.
  apply (rank_acyclic _ _ _
    (fun x => if decide (x = "A") then 3%nat else if decide (x = "B") then 2%nat else O)).
  intros x y (p & sid & Htr & Hsid & Hy).
  assert (Ht : build_tree demo_rows = <["C" := 2%nat]> (<["B" := 1%nat]> (<["A" := O]> ∅)))
    by reflexivity.
  assert (Hc : demo_index.1.2 = <["b" := ["C"]]> (<["a" := ["B"]]> ∅)) by reflexivity.
  rewrite Ht in Htr. rewrite Hc in Hy. unfold children_get in Hy.
  destruct (decide (x = "C")) as [->|HC].
  { rewrite lookup_insert_eq in Htr. injection Htr as <-. vm_compute in Hsid.
    injection Hsid as <-. vm_compute in Hy. by apply not_elem_of_nil in Hy. }
  rewrite lookup_insert_ne in Htr by congruence.
  destruct (decide (x = "B")) as [->|HB].
  { rewrite lookup_insert_eq in Htr. injection Htr as <-. vm_compute in Hsid.
    injection Hsid as <-. vm_compute in Hy. apply list_elem_of_singleton in Hy as ->.
    vm_compute. lia. }
  rewrite lookup_insert_ne in Htr by congruence.
  destruct (decide (x = "A")) as [->|HA].
  { rewrite lookup_insert_eq in Htr. injection Htr as <-. vm_compute in Hsid.
    injection Hsid as <-. vm_compute in Hy. apply list_elem_of_singleton in Hy as ->.
    vm_compute. lia. }
  rewrite lookup_insert_ne in Htr by congruence. done.
Qed.

Lemma emission_terminates_acyclic_witness :
  exists fuel, forall x,
    log_child_span fuel (build_tree demo_rows) demo_index.1.2 x demo_store <> inl OutOfFuel
    /\ log_child_run fuel (build_tree demo_rows) demo_index.1.2 x demo_store <> inl OutOfFuel
    /\ replay_root_bt fuel (build_tree demo_rows) demo_index.1.2 x demo_store <> inl OutOfFuel
    /\ replay_root_ls fuel (build_tree demo_rows) demo_index.1.2 x demo_store <> inl OutOfFuel.
Proof.
  apply (proj1 emission_terminates_acyclic (build_tree demo_rows) demo_index.1.2 demo_store).
  apply demo_acyclic.
Defined.

(** * Flush cadence *)

Lemma flush_step_inr (b : option Z) (i : nat) (s s' : state) (u : unit) :
  (if flush_due b i then emit EFlush else ret tt) s = inr (u, s') ->
  st_rows s' = st_rows s
  /\ st_log s' = st_log s ++ (if flush_due b i then [EFlush] else []).
Proof.
  destruct (flush_due b i); intros H.
  - apply emit_inr in H as ->. done.
  - unfold ret in H. injection H as _ <-. by rewrite app_nil_r.
Qed.

Lemma count_flush_pass_log (b : option Z) (pieces : list (list event)) :
  Forall (fun piece => count_flush piece = O) pieces ->
  forall idx, count_flush (pass_log b idx pieces) = due_count b idx (length pieces).
Proof.
  induction 1 as [|piece pieces Hp _ IH]; intros idx; [done|].
  simpl. rewrite !count_flush_app, Hp, IH. unfold due_count. simpl.
  destruct (flush_due b idx); simpl; lia.
Qed.

Lemma div_succ (a b : Z) :
  0 <= a -> 1 <= b ->
  (a + 1) / b = a / b + (if (a + 1) mod b =? 0 then 1 else 0).
Proof.
  intros Ha Hb.
  pose proof (Z.div_mod a b ltac:(lia)) as E1.
  pose proof (Z.mod_pos_bound a b ltac:(lia)) as B1.
  pose proof (Z.div_mod (a + 1) b ltac:(lia)) as E2.
  pose proof (Z.mod_pos_bound (a + 1) b ltac:(lia)) as B2.
  destruct (Z.eqb_spec ((a + 1) mod b) 0) as [H0|H0]; nia.
Qed.

Lemma due_count_floor (B : Z) (K : nat) :
  1 <= B -> due_count (Some B) 0 K = Z.to_nat (Z.of_nat K / B).
Proof.
  intros HB. induction K as [|K IH].
  - by rewrite Z.div_0_l by lia.
  - unfold due_count in *. rewrite seq_S, List.filter_app, length_app, IH. simpl.
    replace (Z.of_nat (S K)) with (Z.of_nat K + 1) by lia.
    rewrite (div_succ (Z.of_nat K) B) by lia.
    assert (0 <= Z.of_nat K / B) by (apply Z.div_pos; lia).
    unfold flush_due. replace (B =? 0) with false by lia. simpl.
    destruct ((Z.of_nat K + 1) mod B =? 0); simpl; lia.
Qed.

Lemma replay_roots_bt_log (fuel : nat) (tree : gmap string nat)
    (children : gmap string (list string)) (b : option Z) :
  forall roots idx s s', replay_roots_bt fuel tree children b idx roots s = inr (tt, s') ->
  exists pieces, length pieces = length roots
    /\ Forall (fun piece => count_flush piece = O) pieces
    /\ st_log s' = st_log s ++ pass_log b idx pieces.
Proof.
  induction roots as [|r roots IH]; intros idx s s' H; simpl in H.
  - injection H as <-. exists []. by rewrite app_nil_r.
  - inv_bind H. units.
    destruct (replay_root_bt_ok _ _ _ _ _ _ Hm) as (p & row & new & t & _ & _ & _ & Hl & Hc & _).
    inv_bind H. apply flush_step_inr in Hm0 as [_ Hl2].
    destruct (IH _ _ _ H) as (pieces & Hlen & Hf & Hl3).
    exists (new :: pieces). split; [simpl; lia|]. split; [by constructor|].
    rewrite Hl3, Hl2, Hl. simpl. by rewrite <- !app_assoc.
Qed.

Lemma replay_roots_ls_log (fuel : nat) (tree : gmap string nat)
    (children : gmap string (list string)) (b : option Z) :
  forall roots idx s s', replay_roots_ls fuel tree children b idx roots s = inr (tt, s') ->
  exists pieces, length pieces = length roots
    /\ Forall (fun piece => count_flush piece = O) pieces
    /\ st_log s' = st_log s ++ pass_log b idx pieces.
Proof.
  induction roots as [|r roots IH]; intros idx s s' H; simpl in H.
  - injection H as <-. exists []. by rewrite app_nil_r.
  - inv_bind H. units.
    destruct (replay_root_ls_ok _ _ _ _ _ _ Hm) as (p & row & new & t & _ & _ & _ & Hl & Hc & _).
    inv_bind H. apply flush_step_inr in Hm0 as [_ Hl2].
    destruct (IH _ _ _ H) as (pieces & Hlen & Hf & Hl3).
    exists (new :: pieces). split; [simpl; lia|]. split; [by constructor|].
    rewrite Hl3, Hl2, Hl. simpl. by rewrite <- !app_assoc.
Qed.

Lemma iteration_log_of (B : Z) (roots : list string) (pieces : list (list event)) :
  1 <= B -> length pieces = length roots ->
  Forall (fun piece => count_flush piece = O) pieces ->
  iteration_log B (length roots) (pass_log (Some B) 0 pieces).
Proof.
  intros HB Hlen Hf. exists pieces. split; [done|]. split; [done|]. split; [done|].
  rewrite count_flush_pass_log by done. rewrite Hlen. by apply due_count_floor.
Qed.

Lemma iterations_bt_log (fuel : nat) (tree : gmap string nat)
    (children : gmap string (list string)) (B : Z) (roots : list string) :
  1 <= B ->
  forall n s s', iterations_bt fuel tree children (Some B) n roots s = inr (tt, s') ->
  exists its, length its = n /\ Forall (iteration_log B (length roots)) its
    /\ st_log s' = st_log s ++ concat its.
Proof.
  intros HB. induction n as [|n IH]; intros s s' H; simpl in H.
  - injection H as <-. exists []. by rewrite app_nil_r.
  - inv_bind H. units.
    destruct (replay_roots_bt_log _ _ _ _ _ _ _ _ Hm) as (pieces & Hlen & Hf & Hl).
    destruct (IH _ _ H) as (its & Hn & Hits & Hl2).
    exists (pass_log (Some B) 0 pieces :: its). split; [simpl; lia|].
    split; [constructor; [by apply iteration_log_of|done]|].
    rewrite Hl2, Hl. simpl. by rewrite <- app_assoc.
Qed.

Lemma iterations_ls_log (fuel : nat) (tree : gmap string nat)
    (children : gmap string (list string)) (B : Z) (roots : list string) :
  1 <= B ->
  forall n s s', iterations_ls fuel tree children (Some B) n roots s = inr (tt, s') ->
  exists its, length its = n /\ Forall (iteration_log B (length roots)) its
    /\ st_log s' = st_log s ++ concat (map (fun it => it ++ [EFlush]) its).
Proof.
  intros HB. induction n as [|n IH]; intros s s' H; simpl in H.
  - injection H as <-. exists []. by rewrite app_nil_r.
  - inv_bind H. units.
    destruct (replay_roots_ls_log _ _ _ _ _ _ _ _ Hm) as (pieces & Hlen & Hf & Hl).
    inv_bind H. apply emit_inr in Hm0 as ->.
    destruct (IH _ _ H) as (its & Hn & Hits & Hl2).
    exists (pass_log (Some B) 0 pieces :: its). split; [simpl; lia|].
    split; [constructor; [by apply iteration_log_of|done]|].
    rewrite Hl2. simpl. rewrite Hl. by rewrite <- !app_assoc.
Qed.

(** [C1] counterexample: Braintrust replay of the example (one root) for
    two iterations with batch size 5 requests a single flush, after the
    last iteration, where one flush after each iteration would make two;
    the LangSmith replay requests two. *)
Lemma bt_flushes_once_at_end :
  (exists s', run_bt 3 (mk_args false 2 None (Some 5)) demo_rows = inr (tt, s')
     /\ count_flush (st_log s') = 1%nat)
  /\ (exists s', run_ls 3 (mk_args false 2 None (Some 5)) demo_rows = inr (tt, s')
     /\ count_flush (st_log s') = 2%nat).
Proof. split; run_exists; split; vm_compute; reflexivity. Qed.

(** [C1] With batch size [B >= 1] and [K] roots, each iteration of either
    script requests floor(K/B) interim flushes, one after each root whose
    1-based position is a multiple of [B] (the position restarting at
    every iteration).  load_langsmith.py also flushes after each
    iteration; load_braintrust.py flushes once, after the last iteration. *)
Theorem flush_cadence (fuel : nat) (tree : gmap string nat)
    (children : gmap string (list string)) (B iters : Z) (roots : list string)
    (s s' : state) :
  1 <= B ->
  (replay_bt fuel tree children (Some B) iters roots s = inr (tt, s') ->
   exists its, length its = Z.to_nat iters /\ Forall (iteration_log B (length roots)) its
     /\ st_log s' = st_log s ++ concat its ++ [EFlush])
  /\ (replay_ls fuel tree children (Some B) iters roots s = inr (tt, s') ->
   exists its, length its = Z.to_nat iters /\ Forall (iteration_log B (length roots)) its
     /\ st_log s' = st_log s ++ concat (map (fun it => it ++ [EFlush]) its)).
Proof.
  intros HB. split; intros H.
  - unfold replay_bt in H. inv_bind H. units. apply emit_inr in H as ->.
    destruct (iterations_bt_log _ _ _ _ _ HB _ _ _ Hm) as (its & Hn & Hits & Hl).
    exists its. split; [done|]. split; [done|]. simpl. rewrite Hl. by rewrite <- app_assoc.
  - unfold replay_ls in H. by apply (iterations_ls_log _ _ _ _ _ HB _ _ _ H).
Qed.

Lemma flush_cadence_witness :
  exists s', replay_bt 3 (build_tree demo_rows) demo_index.1.2 (Some 1) 2 demo_index.2
               demo_store = inr (tt, s')
    /\ exists its, length its = 2%nat /\ Forall (iteration_log 1 1) its
       /\ st_log s' = st_log demo_store ++ concat its ++ [EFlush].
Proof.
  run_exists. split; [vm_compute; reflexivity|].
  apply (proj1 (flush_cadence 3 (build_tree demo_rows) demo_index.1.2 1 2 demo_index.2
                  demo_store _ ltac:(lia))).
  vm_compute. reflexivity.
Defined.

(** * Model tag injection *)

Lemma tag_row_idem (r : span_row) : tag_row (tag_row r) = tag_row r.
Proof. unfold tag_row, with_metadata. simpl. by rewrite insert_insert_eq. Qed.

Lemma tag_opt_idem (o : option span_row) : tag_row <$> (tag_row <$> o) = tag_row <$> o.
Proof. destruct o; simpl; [by rewrite tag_row_idem|done]. Qed.

Lemma tag_row_tagged (r : span_row) : model_tagged (metadata (tag_row r)).
Proof. unfold model_tagged, tag_row, with_metadata. simpl. by rewrite lookup_insert_eq. Qed.

Lemma root_attaches_flush (b : option Z) (i : nat) :
  root_attaches (if flush_due b i then [EFlush] else []) = [].
Proof. by destruct (flush_due b i). Qed.

Lemma replay_roots_bt_rows (fuel : nat) (tree : gmap string nat)
    (children : gmap string (list string)) (b : option Z) :
  forall roots idx s s', replay_roots_bt fuel tree children b idx roots s = inr (tt, s') ->
  (forall p, st_rows s' !! p
     = if touched tree roots p then tag_row <$> st_rows s !! p else st_rows s !! p)
  /\ (Forall model_tagged (root_attaches (st_log s)) ->
      Forall model_tagged (root_attaches (st_log s'))).
Proof.
  induction roots as [|r roots IH]; intros idx s s' H; simpl in H.
  - injection H as <-. done.
  - inv_bind H. units.
    destruct (replay_root_bt_ok _ _ _ _ _ _ Hm)
      as (p & row & new & t & Htr & Hrow & Hrows & Hl & _ & Ha & _).
    inv_bind H. apply flush_step_inr in Hm0 as [Hr2 Hl2].
    destruct (IH _ _ _ H) as [Hp Hatt]. split.
    + intros q. rewrite Hp, Hr2, Hrows. unfold touched. simpl. fold (touched tree roots q).
      destruct (decide (q = p)) as [->|Hne].
      * rewrite bool_decide_eq_true_2 by done.
        rewrite list_lookup_insert_eq by (eapply lookup_lt_Some; exact Hrow).
        rewrite Hrow. simpl. destruct (touched tree roots p); simpl; by rewrite ?tag_row_idem.
      * rewrite bool_decide_eq_false_2 by congruence. simpl.
        by rewrite list_lookup_insert_ne by congruence.
    + intros H0. apply Hatt. rewrite Hl2, Hl, !root_attaches_app, root_attaches_flush, Ha.
      rewrite app_nil_r. apply Forall_app. split; [done|]. constructor; [|done].
      apply tag_row_tagged.
Qed.

Lemma iterations_bt_rows (fuel : nat) (tree : gmap string nat)
    (children : gmap string (list string)) (b : option Z) (roots : list string) :
  forall n s s', iterations_bt fuel tree children b (S n) roots s = inr (tt, s') ->
  (forall p, st_rows s' !! p
     = if touched tree roots p then tag_row <$> st_rows s !! p else st_rows s !! p)
  /\ (Forall model_tagged (root_attaches (st_log s)) ->
      Forall model_tagged (root_attaches (st_log s'))).
Proof.
  induction n as [|n IH]; intros s s' H.
  - simpl in H. inv_bind H. units. injection H as <-.
    by apply (replay_roots_bt_rows _ _ _ _ _ _ _ _ Hm).
  - remember (S n) as m eqn:Hm'. simpl in H. subst m.
    inv_bind H. units.
    destruct (replay_roots_bt_rows _ _ _ _ _ _ _ _ Hm) as [Hp1 Ha1].
    destruct (IH _ _ H) as [Hp2 Ha2]. split; [|by intros; apply Ha2, Ha1].
    intros q. rewrite Hp2, Hp1. destruct (touched tree roots q); [apply tag_opt_idem|done].
Qed.

Lemma replay_roots_ls_rows (fuel : nat) (tree : gmap string nat)
    (children : gmap string (list string)) (b : option Z) :
  forall roots idx s s', replay_roots_ls fuel tree children b idx roots s = inr (tt, s') ->
  st_rows s' = st_rows s
  /\ (Forall (fun md => exists r, In r (st_rows s) /\ md = metadata r) (root_attaches (st_log s)) ->
      Forall (fun md => exists r, In r (st_rows s) /\ md = metadata r) (root_attaches (st_log s'))).
Proof.
  induction roots as [|r roots IH]; intros idx s s' H; simpl in H.
  - injection H as <-. done.
  - inv_bind H. units.
    destruct (replay_root_ls_ok _ _ _ _ _ _ Hm)
      as (p & row & new & t & Htr & Hrow & Hrows & Hl & _ & Ha & _).
    inv_bind H. apply flush_step_inr in Hm0 as [Hr2 Hl2].
    destruct (IH _ _ _ H) as [Hp Hatt]. rewrite Hr2, Hrows in Hp, Hatt. split; [done|].
    intros H0. apply Hatt. rewrite Hl2, Hl, !root_attaches_app, root_attaches_flush, Ha.
    rewrite app_nil_r. apply Forall_app. split; [done|]. constructor; [|done].
    exists row. split; [|done]. apply list_elem_of_In, (list_elem_of_lookup_2 _ p), Hrow.
Qed.

Lemma iterations_ls_rows (fuel : nat) (tree : gmap string nat)
    (children : gmap string (list string)) (b : option Z) (roots : list string) :
  forall n s s', iterations_ls fuel tree children b n roots s = inr (tt, s') ->
  st_rows s' = st_rows s
  /\ (Forall (fun md => exists r, In r (st_rows s) /\ md = metadata r) (root_attaches (st_log s)) ->
      Forall (fun md => exists r, In r (st_rows s) /\ md = metadata r) (root_attaches (st_log s'))).
Proof.
  induction n as [|n IH]; intros s s' H; simpl in H.
  - injection H as <-. done.
  - inv_bind H. units.
    destruct (replay_roots_ls_rows _ _ _ _ _ _ _ _ Hm) as [Hp1 Ha1].
    inv_bind H. apply emit_inr in Hm0 as ->.
    destruct (IH _ _ H) as [Hp2 Ha2]. simpl in Hp2, Ha2. rewrite Hp1 in Hp2, Ha2.
    split; [done|]. intros H0. apply Ha2. rewrite root_attaches_app, app_nil_r. by apply Ha1.
Qed.

(** ** The lookup tree *)

Lemma build_tree_from_notin (rows : list span_row) :
  forall i tree k, k ∉ map id rows -> build_tree_from i rows tree !! k = tree !! k.
Proof.
  induction rows as [|r rows IH]; intros i tree k Hk; [done|].
  simpl. apply not_elem_of_cons in Hk as [Hne Hk]. rewrite IH by done.
  by rewrite lookup_insert_ne by congruence.
Qed.

Lemma build_tree_from_sound (rows : list span_row) :
  forall i tree k q, build_tree_from i rows tree !! k = Some q ->
  (exists j r, rows !! j = Some r /\ id r = k /\ q = (i + j)%nat) \/ tree !! k = Some q.
Proof.
  induction rows as [|r rows IH]; intros i tree k q H; simpl in H; [by right|].
  destruct (IH _ _ _ _ H) as [(j & r' & Hj & Hid & ->)|Hq].
  - left. exists (S j), r'. split; [done|]. split; [done|lia].
  - destruct (decide (id r = k)) as [<-|Hne].
    + rewrite lookup_insert_eq in Hq. injection Hq as <-. left. exists O, r.
      split; [done|]. split; [done|lia].
    + rewrite lookup_insert_ne in Hq by done. by right.
Qed.

Lemma build_tree_from_complete (rows : list span_row) :
  NoDup (map id rows) ->
  forall i tree j r, rows !! j = Some r -> build_tree_from i rows tree !! id r = Some (i + j)%nat.
Proof.
  induction rows as [|r0 rows IH]; intros Hnd i tree j r Hj; [done|].
  simpl. apply NoDup_cons in Hnd as [Hnin Hnd]. destruct j as [|j]; simpl in Hj.
  - injection Hj as <-. rewrite build_tree_from_notin by done.
    rewrite lookup_insert_eq. f_equal. lia.
  - rewrite (IH Hnd _ _ _ _ Hj). f_equal. lia.
Qed.

(** With unique ids, the row object at position [j] is replayed as a root
    exactly when its record is classified as a root. *)
Lemma touched_is_root (fl : bool) (rows : list span_row) (j : nat) (r : span_row) :
  NoDup (map id rows) -> rows !! j = Some r ->
  touched (build_tree rows) (map id (filter (fun r => is_root fl r = true) rows)) j = is_root fl r.
Proof.
  intros Hnd Hj. unfold touched, build_tree.
  assert (Hin : In r rows) by (apply list_elem_of_In, (list_elem_of_lookup_2 _ j), Hj).
  destruct (is_root fl r) eqn:E.
  - apply existsb_exists. exists (id r). split.
    + apply in_map, list_elem_of_In, list_elem_of_filter. split; [done|].
      by apply list_elem_of_In.
    + apply bool_decide_eq_true_2. by rewrite (build_tree_from_complete rows Hnd 0 ∅ j r Hj).
  - apply not_true_iff_false. intros Hx. apply existsb_exists in Hx as (x & Hx & Hb).
    apply bool_decide_eq_true_1 in Hb.
    apply in_map_iff in Hx as (r2 & <- & Hr2).
    apply list_elem_of_In, list_elem_of_filter in Hr2 as [Hroot2 Hr2].
    destruct (build_tree_from_sound _ _ _ _ _ Hb) as [(j' & r3 & Hj' & Hid & Hq)|Hq];
      [|by rewrite lookup_empty in Hq].
    simpl in Hq. subst j'. rewrite Hj in Hj'. injection Hj' as <-.
    assert (r2 = r) as ->.
    { apply (NoDup_map_eq id rows); [done|by apply list_elem_of_In|done|done]. }
    congruence.
Qed.

(** [C2] counterexample: the LangSmith replay of the example attaches the
    root's metadata as it is, without a model tag. *)
Lemma ls_root_metadata_untagged :
  exists s', run_ls 3 (mk_args false 1 None None) demo_rows = inr (tt, s')
    /\ root_attaches (st_log s') = [∅] /\ ~ model_tagged ∅.
Proof.
  run_exists. split; [vm_compute; reflexivity|]. split; [vm_compute; reflexivity|].
  unfold model_tagged. by rewrite lookup_empty.
Qed.

Lemma root_units_app (l1 l2 : list event) :
  root_units (l1 ++ l2) = root_units l1 ++ root_units l2.
Proof. induction l1 as [|[? ?|? [?|]|?|] l1 IH]; simpl; rewrite ?IH; done. Qed.

Lemma root_units_snd (l : list event) : map snd (root_units l) = root_attaches l.
Proof. induction l as [|[? ?|? [?|]|?|] l IH]; simpl; rewrite ?IH; done. Qed.

Lemma root_units_nil (l : list event) : root_attaches l = [] -> root_units l = [].
Proof. intros H. apply (map_eq_nil snd). by rewrite root_units_snd. Qed.

Lemma root_units_flush (b : option Z) (i : nat) :
  root_units (if flush_due b i then [EFlush] else []) = [].
Proof. by destruct (flush_due b i). Qed.

Lemma replay_root_bt_units (fuel : nat) (tree : gmap string nat)
    (children : gmap string (list string)) (x : string) (s s' : state) :
  replay_root_bt fuel tree children x s = inr (tt, s') ->
  exists p row new, tree !! x = Some p /\ st_rows s !! p = Some row
    /\ st_rows s' = <[p := tag_row row]> (st_rows s)
    /\ st_log s' = st_log s ++ new /\ root_units new = [(x, metadata (tag_row row))].
Proof.
  intros H. unfold replay_root_bt in H.
  inv_bind H. destruct a as [p row]. apply lookup_row_inr in Hm as (-> & Htr & Hrow).
  inv_bind H. apply emit_inr in Hm as ->.
  inv_bind H. apply set_row_inr in Hm as ->.
  inv_bind H. apply emit_inr in Hm as ->.
  inv_bind H. units.
  destruct (for_each_ok _ tree children (log_child_span_ok fuel tree children) _ _ _ Hm)
    as (Hr & ts & new & Hl & Hs & Hg & Hmk & Hc & Ha).
  apply emit_inr in H as ->. simpl in *.
  fold (tag_row row) in *.
  exists p, row, ([EOpen x ROOT_SPAN_NAME; EAttach x (Some (metadata (tag_row row)))] ++ new ++ [EClose x]).
  split; [done|]. split; [done|]. split; [done|].
  split; [rewrite Hg; by rewrite <- !app_assoc|].
  rewrite !root_units_app, (root_units_nil _ Ha). done.
Qed.

Lemma replay_root_ls_units (fuel : nat) (tree : gmap string nat)
    (children : gmap string (list string)) (x : string) (s s' : state) :
  replay_root_ls fuel tree children x s = inr (tt, s') ->
  exists p row new, tree !! x = Some p /\ st_rows s !! p = Some row
    /\ st_rows s' = st_rows s
    /\ st_log s' = st_log s ++ new /\ root_units new = [(x, metadata row)].
Proof.
  intros H. unfold replay_root_ls in H.
  inv_bind H. destruct a as [p row]. apply lookup_row_inr in Hm as (-> & Htr & Hrow).
  inv_bind H. apply emit_inr in Hm as ->.
  inv_bind H. apply emit_inr in Hm as ->.
  inv_bind H. units.
  rewrite (for_each_ext _ _ (log_child_run_span fuel tree children)) in Hm.
  destruct (for_each_ok _ tree children (log_child_span_ok fuel tree children) _ _ _ Hm)
    as (Hr & ts & new & Hl & Hs & Hg & Hmk & Hc & Ha).
  apply emit_inr in H as ->. simpl in *.
  exists p, row, ([EOpen x ROOT_RUN_NAME; EAttach x (Some (metadata row))] ++ new ++ [EClose x]).
  split; [done|]. split; [done|]. split; [done|].
  split; [rewrite Hg; by rewrite <- !app_assoc|].
  rewrite !root_units_app, (root_units_nil _ Ha). done.
Qed.

(** A Braintrust pass over the root records [rs] attaches to the unit of
    each its tagged metadata, when the rows look, once tagged, as [V]. *)
Lemma replay_roots_bt_units (fuel : nat) (tree : gmap string nat)
    (children : gmap string (list string)) (b : option Z) (V : list span_row) :
  forall rs idx s s', tag_row <$> st_rows s = V ->
  (forall r, In r rs -> exists p row, tree !! id r = Some p /\ V !! p = Some row
                         /\ metadata row = <["model" := DEFAULT_MODEL]> (metadata r)) ->
  replay_roots_bt fuel tree children b idx (map id rs) s = inr (tt, s') ->
  tag_row <$> st_rows s' = V
  /\ root_units (st_log s') = root_units (st_log s)
       ++ map (fun r => (id r, <["model" := DEFAULT_MODEL]> (metadata r))) rs.
Proof.
  induction rs as [|r rs IH]; intros idx s s' Hv Hin H; simpl in H.
  - injection H as <-. by rewrite app_nil_r.
  - apply bind_inr in H as (u1 & t1 & H1 & H). units.
    destruct (replay_root_bt_units _ _ _ _ _ _ H1) as (p & row & new & Htr & Hrow & Hrows & Hl & Hu).
    destruct (Hin r (or_introl eq_refl)) as (p' & row' & Htr' & HV & Hmd).
    rewrite Htr in Htr'. injection Htr' as <-.
    assert (row' = tag_row row) as ->.
    { rewrite <- Hv, list_lookup_fmap, Hrow in HV. by injection HV. }
    apply bind_inr in H as (u2 & t2 & H2 & H). apply flush_step_inr in H2 as [Hr2 Hl2].
    assert (Hv2 : tag_row <$> st_rows t2 = V).
    { rewrite Hr2, Hrows, list_fmap_insert, tag_row_idem, Hv. by apply list_insert_id. }
    destruct (IH _ _ _ Hv2 (fun r' Hr' => Hin r' (or_intror Hr')) H) as [Hv3 Hu3].
    split; [done|]. rewrite Hu3, Hl2, Hl, !root_units_app, Hu, root_units_flush, Hmd.
    simpl. by rewrite <- !app_assoc.
Qed.

Lemma iterations_bt_units (fuel : nat) (tree : gmap string nat)
    (children : gmap string (list string)) (b : option Z) (V : list span_row)
    (rs : list span_row) :
  (forall r, In r rs -> exists p row, tree !! id r = Some p /\ V !! p = Some row
                         /\ metadata row = <["model" := DEFAULT_MODEL]> (metadata r)) ->
  forall n s s', tag_row <$> st_rows s = V ->
  iterations_bt fuel tree children b n (map id rs) s = inr (tt, s') ->
  root_units (st_log s') = root_units (st_log s)
    ++ concat (replicate n (map (fun r => (id r, <["model" := DEFAULT_MODEL]> (metadata r))) rs)).
Proof.
  intros Hin. induction n as [|n IH]; intros s s' Hv H; simpl in H.
  - injection H as <-. simpl. by rewrite app_nil_r.
  - apply bind_inr in H as (u1 & t1 & H1 & H). units.
    destruct (replay_roots_bt_units _ _ _ _ _ _ _ _ _ Hv Hin H1) as [Hv1 Hu1].
    rewrite (IH _ _ Hv1 H), Hu1. simpl. by rewrite <- app_assoc.
Qed.

Lemma replay_roots_ls_units (fuel : nat) (tree : gmap string nat)
    (children : gmap string (list string)) (b : option Z) (R : list span_row) :
  forall rs idx s s', st_rows s = R ->
  (forall r, In r rs -> exists p row, tree !! id r = Some p /\ R !! p = Some row
                         /\ metadata row = metadata r) ->
  replay_roots_ls fuel tree children b idx (map id rs) s = inr (tt, s') ->
  st_rows s' = R
  /\ root_units (st_log s') = root_units (st_log s) ++ map (fun r => (id r, metadata r)) rs.
Proof.
  induction rs as [|r rs IH]; intros idx s s' Hv Hin H; simpl in H.
  - injection H as <-. by rewrite app_nil_r.
  - apply bind_inr in H as (u1 & t1 & H1 & H). units.
    destruct (replay_root_ls_units _ _ _ _ _ _ H1) as (p & row & new & Htr & Hrow & Hrows & Hl & Hu).
    destruct (Hin r (or_introl eq_refl)) as (p' & row' & Htr' & HV & Hmd).
    rewrite Htr in Htr'. injection Htr' as <-.
    rewrite <- Hv, Hrow in HV. injection HV as <-.
    apply bind_inr in H as (u2 & t2 & H2 & H). apply flush_step_inr in H2 as [Hr2 Hl2].
    assert (Hv2 : st_rows t2 = R) by congruence.
    destruct (IH _ _ _ Hv2 (fun r' Hr' => Hin r' (or_intror Hr')) H) as [Hv3 Hu3].
    split; [done|]. rewrite Hu3, Hl2, Hl, !root_units_app, Hu, root_units_flush, Hmd.
    simpl. by rewrite <- !app_assoc.
Qed.

Lemma iterations_ls_units (fuel : nat) (tree : gmap string nat)
    (children : gmap string (list string)) (b : option Z) (R : list span_row)
    (rs : list span_row) :
  (forall r, In r rs -> exists p row, tree !! id r = Some p /\ R !! p = Some row
                         /\ metadata row = metadata r) ->
  forall n s s', st_rows s = R ->
  iterations_ls fuel tree children b n (map id rs) s = inr (tt, s') ->
  root_units (st_log s') = root_units (st_log s)
    ++ concat (replicate n (map (fun r => (id r, metadata r)) rs)).
Proof.
  intros Hin. induction n as [|n IH]; intros s s' Hv H; simpl in H.
  - injection H as <-. simpl. by rewrite app_nil_r.
  - apply bind_inr in H as (u1 & t1 & H1 & H). units.
    destruct (replay_roots_ls_units _ _ _ _ _ _ _ _ _ Hv Hin H1) as [Hv1 Hu1].
    apply bind_inr in H as (u2 & t2 & H2 & H). apply emit_inr in H2 as ->.
    rewrite (IH (mk_state (st_rows t1) (st_log t1 ++ [EFlush])) _ Hv1 H). simpl.
    rewrite root_units_app, Hu1. simpl. by rewrite app_nil_r, <- app_assoc.
Qed.

(** [C2] With unique record ids and at least one iteration, a successful
    run of load_braintrust.py sets the model tag to the default model in
    the metadata of exactly the records classified as roots and leaves the
    metadata of every other record unchanged; in every iteration the
    top-level units are those of the root records, in input order, and
    the unit of each root record is attached that record's own metadata
    with the tag set.  A successful run of load_langsmith.py changes no
    record's metadata, and in every iteration attaches to the unit of each
    root record, in input order, that record's own metadata as it is. *)
Theorem model_tag_root_only (fuel : nat) (a : cli_args) (rows : list span_row) (s' : state) :
  NoDup (map id rows) -> 1 <= iterations a ->
  (run_bt fuel a rows = inr (tt, s') ->
     (forall j r, rows !! j = Some r -> exists r', st_rows s' !! j = Some r'
        /\ metadata r' = if is_root (flatten a) r
                         then <["model" := DEFAULT_MODEL]> (metadata r) else metadata r)
     /\ root_units (st_log s')
        = concat (replicate (Z.to_nat (iterations a))
            (map (fun r => (id r, <["model" := DEFAULT_MODEL]> (metadata r)))
                 (filter (fun r => is_root (flatten a) r = true) rows))))
  /\ (run_ls fuel a rows = inr (tt, s') ->
     (forall j r, rows !! j = Some r -> exists r', st_rows s' !! j = Some r'
        /\ metadata r' = metadata r)
     /\ root_units (st_log s')
        = concat (replicate (Z.to_nat (iterations a))
            (map (fun r => (id r, metadata r))
                 (filter (fun r => is_root (flatten a) r = true) rows)))).
Proof.
  intros Hnd Hit.
  assert (Hpos : forall r, In r (filter (fun r => is_root (flatten a) r = true) rows) ->
            exists j, rows !! j = Some r /\ build_tree rows !! id r = Some j).
  { intros r Hr. apply list_elem_of_In, list_elem_of_filter in Hr as [_ Hr].
    apply list_elem_of_lookup_1 in Hr as (j & Hj). exists j. split; [done|].
    unfold build_tree. by rewrite (build_tree_from_complete rows Hnd 0 ∅ j r Hj). }
  split; intros H.
  - unfold run_bt in H.
    destruct (index_bt (flatten a) rows) as [e|[[rows' ch] roots]] eqn:Hix; [done|].
    destruct (index_loop_spec _ _ del_parents_bt_keeps _ _ _ _ _ _ Hix)
      as (Hroots & _ & Hsame). simpl in Hroots.
    unfold replay_bt in H. inv_bind H. units. apply emit_inr in H as ->. simpl.
    split.
    + replace (Z.to_nat (iterations a)) with (S (Z.to_nat (iterations a) - 1)) in Hm by lia.
      destruct (iterations_bt_rows _ _ _ _ _ _ _ _ Hm) as [Hp _]. simpl in Hp.
      intros j r Hr. destruct (Forall2_lookup_l _ _ _ _ _ Hsame Hr) as (r'' & Hr'' & _ & _ & Hmd).
      rewrite Hp, Hr'', Hroots, (touched_is_root _ _ j r) by done.
      destruct (is_root (flatten a) r); simpl; eexists; (split; [reflexivity|]).
      * unfold tag_row, with_metadata. simpl. by rewrite Hmd.
      * done.
    + rewrite Hroots in Hm.
      rewrite root_units_app, app_nil_r.
      refine (iterations_bt_units _ _ _ _ (tag_row <$> rows') _ _ _ (mk_state rows' []) _ eq_refl Hm).
      intros r Hr. destruct (Hpos r Hr) as (j & Hj & Htr).
      destruct (Forall2_lookup_l _ _ _ _ _ Hsame Hj) as (r'' & Hr'' & _ & _ & Hmd).
      exists j, (tag_row r''). split; [done|]. rewrite list_lookup_fmap, Hr''.
      split; [done|]. unfold tag_row, with_metadata. simpl. by rewrite Hmd.
  - unfold run_ls in H.
    destruct (index_ls (flatten a) rows) as [e|[[rows' ch] roots]] eqn:Hix; [done|].
    destruct (index_loop_spec _ _ del_parents_ls_keeps _ _ _ _ _ _ Hix)
      as (Hroots & _ & Hsame). simpl in Hroots.
    unfold replay_ls in H.
    destruct (iterations_ls_rows _ _ _ _ _ _ _ _ H) as [Hp _]. simpl in Hp. split.
    + intros j r Hr. destruct (Forall2_lookup_l _ _ _ _ _ Hsame Hr) as (r'' & Hr'' & _ & _ & Hmd).
      exists r''. by rewrite Hp.
    + rewrite Hroots in H.
      refine (iterations_ls_units _ _ _ _ rows' _ _ _ (mk_state rows' []) _ eq_refl H).
      intros r Hr. destruct (Hpos r Hr) as (j & Hj & Htr).
      destruct (Forall2_lookup_l _ _ _ _ _ Hsame Hj) as (r'' & Hr'' & _ & _ & Hmd).
      exists j, r''. done.
Qed.

Lemma model_tag_root_only_witness :
  exists s', run_bt 3 (mk_args false 2 None None) demo_rows = inr (tt, s')
    /\ (forall j r, demo_rows !! j = Some r -> exists r', st_rows s' !! j = Some r'
          /\ metadata r' = if is_root false r
                           then <["model" := DEFAULT_MODEL]> (metadata r) else metadata r)
    /\ root_units (st_log s')
       = concat (replicate (Z.to_nat 2)
           (map (fun r => (id r, <["model" := DEFAULT_MODEL]> (metadata r)))
                (filter (fun r => is_root false r = true) demo_rows))).
Proof.
  run_exists. split; [vm_compute; reflexivity|].
  apply (proj1 (model_tag_root_only 3 (mk_args false 2 None None) demo_rows _
                  ltac:(apply (bool_decide_unpack _); vm_compute; exact I)
                  ltac:(simpl; lia))).
  vm_compute. reflexivity.
Defined.

Lemma index_bt_eq_index_ls_witness :
  Forall (fun r => span_parents r <> SPAbsent) demo_rows
  /\ index_bt false demo_rows = index_ls false demo_rows.
Proof.
  split; [repeat constructor; simpl; discriminate|].
  apply (index_bt_eq_index_ls false demo_rows). repeat constructor; simpl; discriminate.
Defined.

(** * The lookup tree with repeated ids *)

Lemma build_tree_from_app (l1 l2 : list span_row) :
  forall i tree, build_tree_from i (l1 ++ l2) tree
                 = build_tree_from (i + length l1) l2 (build_tree_from i l1 tree).
Proof.
  induction l1 as [|r l1 IH]; intros i tree; simpl; [by rewrite Nat.add_0_r|].
  rewrite IH. f_equal. lia.
Qed.

(** A record's position is at most the one its id is mapped to. *)
Lemma build_tree_from_ge (rows : list span_row) :
  forall i tree j r, rows !! j = Some r ->
  exists q, build_tree_from i rows tree !! id r = Some q /\ (i + j <= q)%nat.
Proof.
  induction rows as [|r0 rows IH]; intros i tree j r Hj; [done|].
  simpl. destruct j as [|j]; simpl in Hj.
  - injection Hj as <-.
    destruct (decide (id r0 ∈ map id rows)) as [Hin|Hnin].
    + apply list_elem_of_In, in_map_iff in Hin as (r1 & Hid & Hr1).
      apply list_elem_of_In, list_elem_of_lookup_1 in Hr1 as (j1 & Hj1).
      destruct (IH (S i) (<[id r0 := i]> tree) _ _ Hj1) as (q & Hq & Hle).
      exists q. rewrite Hid in Hq. split; [done|lia].
    + exists i. rewrite build_tree_from_notin by done.
      rewrite lookup_insert_eq. split; [done|lia].
  - destruct (IH (S i) (<[id r0 := i]> tree) _ _ Hj) as (q & Hq & Hle).
    exists q. split; [done|lia].
Qed.

Lemma lookup_lt_length {A} (l : list A) (i : nat) (x : A) :
  l !! i = Some x -> (i < length l)%nat.
Proof. apply lookup_lt_Some. Qed.

(** [tree[row["id"]] = row] over the rows: an id is mapped to the last
    record carrying it; records with an earlier occurrence of the id are
    no longer reachable through [tree]. *)
Theorem build_tree_last_wins (rows : list span_row) (k : string) (j : nat) :
  build_tree rows !! k = Some j
  <-> exists r, rows !! j = Some r /\ id r = k
       /\ forall j' r', (j < j')%nat -> rows !! j' = Some r' -> id r' <> k.
Proof.
  unfold build_tree. split.
  - intros H. destruct (build_tree_from_sound _ _ _ _ _ H) as [(j0 & r & Hj & Hid & Hq)|Hq];
      [|by rewrite lookup_empty in Hq].
    simpl in Hq. subst j0. exists r. split; [done|]. split; [done|].
    intros j' r' Hlt Hj' Hid'. subst k.
    destruct (build_tree_from_ge rows 0 ∅ j' r' Hj') as (q & Hq & Hle).
    rewrite Hid', H in Hq. injection Hq as <-. lia.
  - intros (r & Hj & <- & Hlast).
    pose proof (take_drop_middle rows j r Hj) as Hsplit.
    rewrite <- Hsplit, build_tree_from_app. simpl.
    rewrite build_tree_from_notin.
    + rewrite lookup_insert_eq. f_equal. rewrite length_take.
      pose proof (lookup_lt_length _ _ _ Hj). lia.
    + intros Hin. apply list_elem_of_In, in_map_iff in Hin as (r' & Hid & Hr').
      apply list_elem_of_In, list_elem_of_lookup_1 in Hr' as (j' & Hj').
      rewrite lookup_drop in Hj'.
      apply (Hlast (S j + j')%nat r'); [lia|done|done].
Qed.

(** * The children mapping *)

Lemma register_child_nonempty (rid : string) (ps : list string) :
  forall children : gmap string (list string),
  (forall p l, children !! p = Some l -> l <> []) ->
  forall p l, foldl (register_child rid) children ps !! p = Some l -> l <> [].
Proof.
  induction ps as [|q ps IH]; intros children Hc; simpl; [done|].
  apply IH. intros p l. unfold register_child.
  destruct (decide (q = p)) as [->|Hne].
  - rewrite lookup_insert_eq. intros [= <-]. destruct (default [] (children !! p)); done.
  - rewrite lookup_insert_ne by done. apply Hc.
Qed.

Lemma index_loop_nonempty (d : span_row -> exn + span_row) (fl : bool) :
  forall rows children roots rows' children' roots',
  index_loop d fl rows children roots = inr (rows', children', roots') ->
  (forall p l, children !! p = Some l -> l <> []) ->
  forall p l, children' !! p = Some l -> l <> [].
Proof.
  induction rows as [|r rows IH]; intros children roots rows' children' roots' Hix Hc;
    simpl in Hix.
  - by injection Hix as _ <- _.
  - destruct (child_branch fl r) as [e|[ps|]]; [done| |].
    + destruct (index_loop d fl rows (foldl (register_child (id r)) children ps) roots)
        as [e|[[rows0 c0] r1]] eqn:Hrec; [done|].
      injection Hix as _ <- _. eapply IH; [exact Hrec|]. by apply register_child_nonempty.
    + destruct (d r) as [e|r0]; [done|].
      destruct (index_loop d fl rows children (roots ++ [id r]))
        as [e|[[rows0 c0] r1]] eqn:Hrec; [done|].
      injection Hix as _ <- _. eapply IH; [exact Hrec|exact Hc].
Qed.

Lemma index_children_spec (d : span_row -> exn + span_row) (fl : bool) (rows : list span_row)
    (rows' : list span_row) (children : gmap string (list string)) (roots : list string) :
  keeps_fields d ->
  index_loop d fl rows ∅ [] = inr (rows', children, roots) ->
  length rows' = length rows
  /\ (forall p l, children !! p = Some l ->
        l <> [] /\ forall x, In x l -> exists r ps, In r rows /\ id r = x
                     /\ is_root fl r = false /\ span_parents r = SPList ps /\ In p ps)
  /\ (forall x, In x roots -> exists r, In r rows /\ id r = x /\ is_root fl r = true).
Proof.
  intros Hd Hix.
  destruct (index_loop_spec d fl Hd _ _ _ _ _ _ Hix) as (Hroots & Hch & Hsame).
  split; [symmetry; by eapply Forall2_length|]. split.
  - intros p l Hl. split; [eapply index_loop_nonempty; [exact Hix| |exact Hl]; done|].
    intros x Hx. assert (Hg : children_get children p = l) by (unfold children_get; by rewrite Hl).
    rewrite <- Hg, Hch in Hx. simpl in Hx. apply in_flat_map in Hx as (r & Hr & Hx).
    unfold contrib in Hx. destruct (is_root fl r) eqn:Hroot; [done|].
    destruct (span_parents r) as [| |ps] eqn:Hsp; [done|done|].
    apply in_map_iff in Hx as (q & <- & Hq).
    apply list_elem_of_In, list_elem_of_filter in Hq as [-> Hq].
    exists r, ps. repeat split; try done. by apply list_elem_of_In.
  - intros x Hx. rewrite Hroots in Hx. simpl in Hx.
    apply in_map_iff in Hx as (r & <- & Hr).
    apply list_elem_of_In, list_elem_of_filter in Hr as [Hroot Hr].
    exists r. split; [by apply list_elem_of_In|done].
Qed.

(** Indexing (both scripts): [children] holds no empty list, and every id
    registered under a key [p] is the id of a non-root record that
    declares [p] among its parents; every id in [roots] is the id of a
    record classified as a root.  The row list keeps its length. *)
Theorem index_children_wf (fl : bool) (rows rows' : list span_row)
    (children : gmap string (list string)) (roots : list string) :
  (index_bt fl rows = inr (rows', children, roots)
   \/ index_ls fl rows = inr (rows', children, roots)) ->
  length rows' = length rows
  /\ (forall p l, children !! p = Some l ->
        l <> [] /\ forall x, In x l -> exists r ps, In r rows /\ id r = x
                     /\ is_root fl r = false /\ span_parents r = SPList ps /\ In p ps)
  /\ (forall x, In x roots -> exists r, In r rows /\ id r = x /\ is_root fl r = true).
Proof.
  intros [H|H].
  - exact (index_children_spec _ _ _ _ _ _ del_parents_bt_keeps H).
  - exact (index_children_spec _ _ _ _ _ _ del_parents_ls_keeps H).
Qed.

Lemma index_children_wf_witness :
  index_bt false demo_rows = inr (demo_index.1.1, demo_index.1.2, demo_index.2)
  /\ length demo_index.1.1 = length demo_rows.
Proof.
  assert (H : index_bt false demo_rows = inr (demo_index.1.1, demo_index.1.2, demo_index.2))
    by reflexivity.
  split; [exact H|]. apply (index_children_wf false demo_rows _ _ _ (or_introl H)).
Defined.

(** * Replay without lookup errors *)

Lemma lookup_row_ok (tree : gmap string nat) (x : string) (s : state) (e : exn) :
  (exists p, tree !! x = Some p /\ (p < length (st_rows s))%nat) ->
  lookup_row tree x s <> inl e.
Proof.
  intros (p & Hp & Hlt). unfold lookup_row. rewrite Hp.
  destruct (lookup_lt_is_Some_2 _ _ Hlt) as [row Hrow]. by rewrite Hrow.
Qed.

(** A failing child emission, from a node whose id and registered child
    ids all resolve, fails for lack of fuel. *)
Lemma log_child_span_fail (tree : gmap string nat) (children : gmap string (list string)) :
  forall f x s e,
  (exists p, tree !! x = Some p /\ (p < length (st_rows s))%nat) ->
  (forall sid y, In y (children_get children sid) ->
     exists p, tree !! y = Some p /\ (p < length (st_rows s))%nat) ->
  log_child_span f tree children x s = inl e -> e = OutOfFuel.
Proof.
  induction f as [|f IH]; intros x s e Hx Hc H; simpl in H; [by injection H|].
  apply bind_inl in H as [H|([p row] & s1 & Hl & H)]; [by apply lookup_row_ok in H|].
  apply lookup_row_inr in Hl as (-> & _ & _).
  apply bind_inl in H as [H|(u1 & s2 & He & H)]; [done|]. apply emit_inr in He as ->.
  apply bind_inl in H as [H|(u2 & s3 & He & H)]; [done|]. apply emit_inr in He as ->.
  apply bind_inl in H as [H|(u3 & s4 & He & H)]; [|done].
  destruct (for_each_inl _ tree children (log_child_span_ok f tree children) _ _ _ H)
    as (y & s5 & Hy & Hr5 & Hf). simpl in Hr5.
  apply (IH y s5); [rewrite Hr5; by apply (Hc _ _ Hy)|rewrite Hr5; exact Hc|exact Hf].
Qed.

(** A failing root replay fails inside the emission of a registered
    child, from a state with the same [span_id]s and as many rows. *)
Lemma replay_root_bt_fail (fuel : nat) (tree : gmap string nat)
    (children : gmap string (list string)) (r : string) (s : state) (e : exn) :
  (exists p, tree !! r = Some p /\ (p < length (st_rows s))%nat) ->
  replay_root_bt fuel tree children r s = inl e ->
  exists sid y s1, In y (children_get children sid)
    /\ span_id <$> st_rows s1 = span_id <$> st_rows s
    /\ length (st_rows s1) = length (st_rows s)
    /\ log_child_span fuel tree children y s1 = inl e.
Proof.
  intros Hr H. unfold replay_root_bt in H.
  apply bind_inl in H as [H|([p row] & s1 & Hl & H)]; [by apply lookup_row_ok in H|].
  apply lookup_row_inr in Hl as (-> & _ & Hrow). simpl in H.
  apply bind_inl in H as [H|(u1 & s2 & He & H)]; [done|]. apply emit_inr in He as ->.
  apply bind_inl in H as [H|(u2 & s3 & He & H)]; [done|]. apply set_row_inr in He as ->.
  apply bind_inl in H as [H|(u3 & s4 & He & H)]; [done|]. apply emit_inr in He as ->.
  apply bind_inl in H as [H|(u4 & s5 & Hfe & H)]; [|done].
  destruct (for_each_inl _ tree children (log_child_span_ok _ tree children) _ _ _ H)
    as (y & s6 & Hy & Hr6 & Hf). simpl in Hr6.
  exists (span_id (with_metadata row (<["model" := DEFAULT_MODEL]> (metadata row)))), y, s6.
  split; [done|]. rewrite Hr6. fold (tag_row row). split; [by apply span_ids_tag|].
  split; [apply length_insert|done].
Qed.

Lemma replay_root_ls_fail (fuel : nat) (tree : gmap string nat)
    (children : gmap string (list string)) (r : string) (s : state) (e : exn) :
  (exists p, tree !! r = Some p /\ (p < length (st_rows s))%nat) ->
  replay_root_ls fuel tree children r s = inl e ->
  exists sid y s1, In y (children_get children sid)
    /\ span_id <$> st_rows s1 = span_id <$> st_rows s
    /\ length (st_rows s1) = length (st_rows s)
    /\ log_child_span fuel tree children y s1 = inl e.
Proof.
  intros Hr H. unfold replay_root_ls in H.
  apply bind_inl in H as [H|([p row] & s1 & Hl & H)]; [by apply lookup_row_ok in H|].
  apply lookup_row_inr in Hl as (-> & _ & Hrow). simpl in H.
  apply bind_inl in H as [H|(u1 & s2 & He & H)]; [done|]. apply emit_inr in He as ->.
  apply bind_inl in H as [H|(u2 & s3 & He & H)]; [done|]. apply emit_inr in He as ->.
  apply bind_inl in H as [H|(u4 & s5 & Hfe & H)]; [|done].
  rewrite (for_each_ext _ _ (log_child_run_span _ tree children)) in H.
  destruct (for_each_inl _ tree children (log_child_span_ok _ tree children) _ _ _ H)
    as (y & s6 & Hy & Hr6 & Hf). simpl in Hr6.
  exists (span_id row), y, s6. rewrite Hr6. done.
Qed.

Lemma flush_step_not_inl (b : option Z) (i : nat) (s : state) (e : exn) :
  (if flush_due b i then emit EFlush else ret tt) s <> inl e.
Proof. by destruct (flush_due b i). Qed.

Lemma replay_roots_bt_fail (fuel : nat) (tree : gmap string nat)
    (children : gmap string (list string)) (b : option Z) :
  forall roots idx s e,
  (forall r, In r roots -> exists p, tree !! r = Some p /\ (p < length (st_rows s))%nat) ->
  replay_roots_bt fuel tree children b idx roots s = inl e ->
  exists sid y s1, In y (children_get children sid)
    /\ span_id <$> st_rows s1 = span_id <$> st_rows s
    /\ length (st_rows s1) = length (st_rows s)
    /\ log_child_span fuel tree children y s1 = inl e.
Proof.
  induction roots as [|r roots IH]; intros idx s e Hr H; simpl in H; [done|].
  apply bind_inl in H as [H|(u & s1 & H1 & H)].
  { apply (replay_root_bt_fail _ _ _ r); [apply Hr; by left|done]. }
  destruct u. destruct (replay_root_bt_ok _ _ _ _ _ _ H1)
    as (p & row & _ & _ & Htr & Hrow & Hrows & _).
  apply bind_inl in H as [H|(u2 & s2 & H2 & H)]; [by apply flush_step_not_inl in H|].
  apply flush_step_inr in H2 as [Hr2 _].
  assert (Hsid : span_id <$> st_rows s2 = span_id <$> st_rows s)
    by (rewrite Hr2, Hrows; by apply span_ids_tag).
  assert (Hlen : length (st_rows s2) = length (st_rows s))
    by (rewrite Hr2, Hrows; apply length_insert).
  destruct (IH _ _ _ ltac:(intros; rewrite Hlen; apply Hr; by right) H)
    as (sid & y & s3 & Hy & Hs3 & Hl3 & Hf).
  exists sid, y, s3. rewrite Hs3, Hl3. done.
Qed.

Lemma replay_roots_ls_fail (fuel : nat) (tree : gmap string nat)
    (children : gmap string (list string)) (b : option Z) :
  forall roots idx s e,
  (forall r, In r roots -> exists p, tree !! r = Some p /\ (p < length (st_rows s))%nat) ->
  replay_roots_ls fuel tree children b idx roots s = inl e ->
  exists sid y s1, In y (children_get children sid)
    /\ span_id <$> st_rows s1 = span_id <$> st_rows s
    /\ length (st_rows s1) = length (st_rows s)
    /\ log_child_span fuel tree children y s1 = inl e.
Proof.
  induction roots as [|r roots IH]; intros idx s e Hr H; simpl in H; [done|].
  apply bind_inl in H as [H|(u & s1 & H1 & H)].
  { apply (replay_root_ls_fail _ _ _ r); [apply Hr; by left|done]. }
  destruct u. destruct (replay_root_ls_ok _ _ _ _ _ _ H1)
    as (p & row & _ & _ & Htr & Hrow & Hrows & _).
  apply bind_inl in H as [H|(u2 & s2 & H2 & H)]; [by apply flush_step_not_inl in H|].
  apply flush_step_inr in H2 as [Hr2 _].
  rewrite Hrows in Hr2.
  destruct (IH _ _ _ ltac:(intros; rewrite Hr2; apply Hr; by right) H)
    as (sid & y & s3 & Hy & Hs3 & Hl3 & Hf).
  exists sid, y, s3. rewrite Hs3, Hl3, Hr2. done.
Qed.

Lemma replay_bt_fail (fuel : nat) (tree : gmap string nat)
    (children : gmap string (list string)) (b : option Z) (iters : Z) (roots : list string)
    (s : state) (e : exn) :
  (forall r, In r roots -> exists p, tree !! r = Some p /\ (p < length (st_rows s))%nat) ->
  replay_bt fuel tree children b iters roots s = inl e ->
  exists sid y s1, In y (children_get children sid)
    /\ span_id <$> st_rows s1 = span_id <$> st_rows s
    /\ length (st_rows s1) = length (st_rows s)
    /\ log_child_span fuel tree children y s1 = inl e.
Proof.
  intros Hr H. unfold replay_bt in H.
  apply bind_inl in H as [H|(u & s1 & _ & H)]; [|done].
  revert s Hr H. induction (Z.to_nat iters) as [|n IH]; intros s Hr H; simpl in H; [done|].
  apply bind_inl in H as [H|(u & s1 & H1 & H)]; [by eapply replay_roots_bt_fail|].
  destruct u. destruct (replay_roots_bt_rows _ _ _ _ _ _ _ _ H1) as [Hp _].
  assert (Hsid : span_id <$> st_rows s1 = span_id <$> st_rows s).
  { apply list_eq. intros q. rewrite !list_lookup_fmap, Hp.
    destruct (touched tree roots q), (st_rows s !! q); done. }
  assert (Hlen : length (st_rows s1) = length (st_rows s)).
  { apply (f_equal length) in Hsid. by rewrite !length_fmap in Hsid. }
  destruct (IH s1 ltac:(intros; rewrite Hlen; by apply Hr) H)
    as (sid & y & s3 & Hy & Hs3 & Hl3 & Hf).
  exists sid, y, s3. rewrite Hs3, Hl3, Hsid, Hlen. done.
Qed.

Lemma replay_ls_fail (fuel : nat) (tree : gmap string nat)
    (children : gmap string (list string)) (b : option Z) (iters : Z) (roots : list string)
    (s : state) (e : exn) :
  (forall r, In r roots -> exists p, tree !! r = Some p /\ (p < length (st_rows s))%nat) ->
  replay_ls fuel tree children b iters roots s = inl e ->
  exists sid y s1, In y (children_get children sid)
    /\ span_id <$> st_rows s1 = span_id <$> st_rows s
    /\ length (st_rows s1) = length (st_rows s)
    /\ log_child_span fuel tree children y s1 = inl e.
Proof.
  intros Hr H. unfold replay_ls in H.
  revert s Hr H. induction (Z.to_nat iters) as [|n IH]; intros s Hr H; simpl in H; [done|].
  apply bind_inl in H as [H|(u & s1 & H1 & H)]; [by eapply replay_roots_ls_fail|].
  destruct u. destruct (replay_roots_ls_rows _ _ _ _ _ _ _ _ H1) as [Hp _].
  apply bind_inl in H as [H|(u2 & s2 & H2 & H)]; [done|]. apply emit_inr in H2 as ->.
  destruct (IH (mk_state (st_rows s1) (st_log s1 ++ [EFlush]))
              ltac:(intros; simpl; rewrite Hp; by apply Hr) H)
    as (sid & y & s3 & Hy & Hs3 & Hl3 & Hf).
  exists sid, y, s3. simpl in Hs3, Hl3. rewrite Hs3, Hl3, Hp. done.
Qed.

Lemma build_tree_resolves (rows : list span_row) (r : span_row) :
  In r rows -> exists p, build_tree rows !! id r = Some p /\ (p < length rows)%nat.
Proof.
  intros Hin. apply list_elem_of_In, list_elem_of_lookup_1 in Hin as (j & Hj).
  destruct (build_tree_from_ge rows 0 ∅ j r Hj) as (q & Hq & _).
  exists q. split; [done|].
  destruct (build_tree_from_sound _ _ _ _ _ Hq) as [(j' & r' & Hj' & _ & ->)|Hq'];
    [simpl; by eapply lookup_lt_Some|by rewrite lookup_empty in Hq'].
Qed.

Lemma same_fields_sids (rows rows' : list span_row) :
  Forall2 same_fields rows rows' -> span_id <$> rows' = span_id <$> rows.
Proof. induction 1 as [|r r' rows rows' (_ & Hs & _) _ IH]; [done|]. rewrite !fmap_cons, Hs, IH. done. Qed.

(** From a successful indexing, a replay failure is a child emission
    running out of fuel. *)
Lemma run_fail_out_of_fuel (d : span_row -> exn + span_row) (fuel : nat) (fl : bool)
    (rows rows' : list span_row) (children : gmap string (list string)) (roots : list string)
    (e : exn) :
  keeps_fields d ->
  index_loop d fl rows ∅ [] = inr (rows', children, roots) ->
  ((forall r, In r roots -> exists p, build_tree rows !! r = Some p
                                     /\ (p < length rows')%nat) ->
   exists sid y s1, In y (children_get children sid)
    /\ span_id <$> st_rows s1 = span_id <$> rows'
    /\ length (st_rows s1) = length rows'
    /\ log_child_span fuel (build_tree rows) children y s1 = inl e) ->
  e = OutOfFuel
  /\ exists y s1, span_id <$> st_rows s1 = span_id <$> rows
     /\ log_child_span fuel (build_tree rows) children y s1 = inl OutOfFuel.
Proof.
  intros Hd Hix Hrep.
  destruct (index_children_spec d fl rows rows' children roots Hd Hix) as (Hlen & Hch & Hroots).
  destruct (index_loop_spec d fl Hd _ _ _ _ _ _ Hix) as (_ & _ & Hsame).
  destruct Hrep as (sid & y & s1 & Hy & Hs1 & Hl1 & Hf).
  { intros r Hr. destruct (Hroots r Hr) as (r0 & Hin & <- & _). rewrite Hlen.
    by apply build_tree_resolves. }
  simpl in Hs1, Hl1. rewrite (same_fields_sids rows rows' Hsame) in Hs1.
  assert (He : e = OutOfFuel).
  { apply (log_child_span_fail (build_tree rows) children fuel y s1 e); [| |exact Hf].
    - unfold children_get in Hy. destruct (children !! sid) as [l|] eqn:Hl; [|done].
      destruct (Hch _ _ Hl) as [_ Hx]. destruct (Hx _ Hy) as (r0 & ps & Hin & <- & _).
      rewrite Hl1, Hlen. by apply build_tree_resolves.
    - intros sid' y' Hy'. unfold children_get in Hy'.
      destruct (children !! sid') as [l|] eqn:Hl; [|done].
      destruct (Hch _ _ Hl) as [_ Hx]. destruct (Hx _ Hy') as (r0 & ps & Hin & <- & _).
      rewrite Hl1, Hlen. by apply build_tree_resolves. }
  subst e. split; [done|]. by exists y, s1.
Qed.

(** Emission with more fuel than registered child ids does not run out of
    fuel on an acyclic graph. *)
Lemma log_child_span_enough_fuel (sids : list string) (tree : gmap string nat)
    (children : gmap string (list string)) (fuel : nat) (y : string) (s : state) :
  acyclic sids tree children -> (length (child_ids children) < fuel)%nat ->
  span_id <$> st_rows s = sids ->
  log_child_span fuel tree children y s <> inl OutOfFuel.
Proof.
  intros Hacy Hf Hs H.
  destruct (log_child_span_out_of_fuel _ _ _ _ _ H) as (l & Hlen & Hp).
  rewrite Hs in Hp. pose proof (acyclic_path_bound _ _ _ Hacy _ _ Hp). lia.
Qed.

(** When indexing succeeds and the parent-to-child edges are acyclic, the
    whole replay of either script succeeds: no lookup [tree[...]] raises
    [KeyError] and the recursion completes.  The bound on the recursion is
    any number above the count of registered child ids. *)
Theorem run_succeeds_acyclic (fuel : nat) (a : cli_args) (rows rows' : list span_row)
    (children : gmap string (list string)) (roots : list string) :
  acyclic (span_id <$> rows) (build_tree rows) children ->
  (length (child_ids children) < fuel)%nat ->
  (index_bt (flatten a) rows = inr (rows', children, roots) ->
   exists s', run_bt fuel a rows = inr (tt, s'))
  /\ (index_ls (flatten a) rows = inr (rows', children, roots) ->
   exists s', run_ls fuel a rows = inr (tt, s')).
Proof.
  intros Hacy Hf. split; intros Hix.
  - unfold run_bt. rewrite Hix.
    destruct (replay_bt fuel (build_tree rows) children (batch_size a) (iterations a) roots
                (mk_state rows' [])) as [e|[[] s']] eqn:H; [|by exists s'].
    exfalso.
    destruct (run_fail_out_of_fuel _ fuel _ _ _ _ _ e del_parents_bt_keeps Hix)
      as (_ & y & s1 & Hs1 & Hy).
    { intros Hr. exact (replay_bt_fail _ _ _ _ _ _ (mk_state rows' []) e Hr H). }
    exact (log_child_span_enough_fuel _ _ _ _ _ _ Hacy Hf Hs1 Hy).
  - unfold run_ls. rewrite Hix.
    destruct (replay_ls fuel (build_tree rows) children (batch_size a) (iterations a) roots
                (mk_state rows' [])) as [e|[[] s']] eqn:H; [|by exists s'].
    exfalso.
    destruct (run_fail_out_of_fuel _ fuel _ _ _ _ _ e del_parents_ls_keeps Hix)
      as (_ & y & s1 & Hs1 & Hy).
    { intros Hr. exact (replay_ls_fail _ _ _ _ _ _ (mk_state rows' []) e Hr H). }
    exact (log_child_span_enough_fuel _ _ _ _ _ _ Hacy Hf Hs1 Hy).
Qed.

Lemma run_succeeds_acyclic_witness :
  exists s', run_bt 3 (mk_args false 1 None None) demo_rows = inr (tt, s').
Proof.
  refine (proj1 (run_succeeds_acyclic 3 (mk_args false 1 None None) demo_rows
                   demo_index.1.1 demo_index.1.2 demo_index.2 _ _) _).
  - assert (E : span_id <$> demo_rows = span_id <$> st_rows demo_store) by reflexivity.
    rewrite E. apply demo_acyclic.
  - vm_compute. lia.
  - reflexivity.
Defined.

(** * Flushes without a batch size *)

Lemma replay_roots_no_batch_bt (fuel : nat) (tree : gmap string nat)
    (children : gmap string (list string)) (roots : list string) (idx : nat) (s s' : state) :
  replay_roots_bt fuel tree children None idx roots s = inr (tt, s') ->
  exists new, st_log s' = st_log s ++ new /\ count_flush new = O.
Proof.
  intros H. destruct (replay_roots_bt_log _ _ _ _ _ _ _ _ H) as (pieces & _ & Hf & Hl).
  exists (pass_log None idx pieces). split; [done|].
  rewrite count_flush_pass_log by done. unfold due_count.
  generalize (seq idx (length pieces)). intros l. by induction l.
Qed.

Lemma replay_roots_no_batch_ls (fuel : nat) (tree : gmap string nat)
    (children : gmap string (list string)) (roots : list string) (idx : nat) (s s' : state) :
  replay_roots_ls fuel tree children None idx roots s = inr (tt, s') ->
  exists new, st_log s' = st_log s ++ new /\ count_flush new = O.
Proof.
  intros H. destruct (replay_roots_ls_log _ _ _ _ _ _ _ _ H) as (pieces & _ & Hf & Hl).
  exists (pass_log None idx pieces). split; [done|].
  rewrite count_flush_pass_log by done. unfold due_count.
  generalize (seq idx (length pieces)). intros l. by induction l.
Qed.

(** Without [--batch-size], a successful replay of load_braintrust.py
    requests exactly one flush, as its last event, whatever the number of
    iterations; one of load_langsmith.py requests exactly one flush per
    iteration, each as the last event of its iteration. *)
Theorem flushes_without_batch (fuel : nat) (tree : gmap string nat)
    (children : gmap string (list string)) (iters : Z) (roots : list string)
    (s s' : state) :
  (replay_bt fuel tree children None iters roots s = inr (tt, s') ->
   exists body, st_log s' = st_log s ++ body ++ [EFlush] /\ count_flush body = O)
  /\ (replay_ls fuel tree children None iters roots s = inr (tt, s') ->
   exists its, length its = Z.to_nat iters
     /\ Forall (fun it => count_flush it = O) its
     /\ st_log s' = st_log s ++ concat (map (fun it => it ++ [EFlush]) its)).
Proof.
  split; intros H.
  - unfold replay_bt in H. inv_bind H. units. apply emit_inr in H as ->. simpl.
    revert s Hm. induction (Z.to_nat iters) as [|n IH]; intros s Hm; simpl in Hm.
    + injection Hm as <-. exists []. done.
    + inv_bind Hm. units. destruct (replay_roots_no_batch_bt _ _ _ _ _ _ _ Hm0) as (n1 & Hl1 & Hc1).
      destruct (IH _ Hm) as (body & Hl & Hc). rewrite Hl1 in Hl.
      exists (n1 ++ body). rewrite count_flush_app, Hc1, Hc. split; [|done].
      rewrite Hl. by rewrite <- !app_assoc.
  - unfold replay_ls in H. revert s H.
    induction (Z.to_nat iters) as [|n IH]; intros s H; simpl in H.
    + injection H as <-. exists []. simpl. by rewrite app_nil_r.
    + inv_bind H. units. destruct (replay_roots_no_batch_ls _ _ _ _ _ _ _ Hm) as (n1 & Hl1 & Hc1).
      inv_bind H. apply emit_inr in Hm0 as ->.
      destruct (IH _ H) as (its & Hn & Hc & Hl). simpl in Hl. rewrite Hl1 in Hl.
      exists (n1 :: its). split; [simpl; lia|]. split; [by constructor|].
      rewrite Hl. simpl. by rewrite <- !app_assoc.
Qed.

Lemma flushes_without_batch_witness :
  exists s', replay_ls 3 (build_tree demo_rows) demo_index.1.2 None 2 demo_index.2 demo_store
               = inr (tt, s')
    /\ exists its, length its = 2%nat /\ Forall (fun it => count_flush it = O) its
       /\ st_log s' = st_log demo_store ++ concat (map (fun it => it ++ [EFlush]) its).
Proof.
  run_exists. split; [vm_compute; reflexivity|].
  apply (proj2 (flushes_without_batch 3 (build_tree demo_rows) demo_index.1.2 2 demo_index.2
                  demo_store _)).
  vm_compute. reflexivity.
Defined.

(** * Flat replay *)

Lemma replay_root_bt_flat (fuel : nat) (tree : gmap string nat) (r : string) (p : nat)
    (s : state) :
  tree !! r = Some p -> (p < length (st_rows s))%nat ->
  exists s', replay_root_bt fuel tree ∅ r s = inr (tt, s')
    /\ length (st_rows s') = length (st_rows s)
    /\ exists new, st_log s' = st_log s ++ new /\ marks new = [Opn r; Cls r].
Proof.
  intros Hp Hlt. destruct (lookup_lt_is_Some_2 _ _ Hlt) as [row Hrow].
  unfold replay_root_bt, bind, lookup_row, emit, set_row, ret. rewrite Hp, Hrow. simpl.
  unfold children_get. rewrite lookup_empty. simpl.
  eexists. split; [reflexivity|]. simpl. split; [apply length_insert|].
  eexists. split; [by rewrite <- !app_assoc|]. reflexivity.
Qed.

Lemma replay_root_ls_flat (fuel : nat) (tree : gmap string nat) (r : string) (p : nat)
    (s : state) :
  tree !! r = Some p -> (p < length (st_rows s))%nat ->
  exists s', replay_root_ls fuel tree ∅ r s = inr (tt, s')
    /\ length (st_rows s') = length (st_rows s)
    /\ exists new, st_log s' = st_log s ++ new /\ marks new = [Opn r; Cls r].
Proof.
  intros Hp Hlt. destruct (lookup_lt_is_Some_2 _ _ Hlt) as [row Hrow].
  unfold replay_root_ls, bind, lookup_row, emit, ret. rewrite Hp, Hrow. simpl.
  unfold children_get. rewrite lookup_empty. simpl.
  eexists. split; [reflexivity|]. simpl. split; [done|].
  eexists. split; [by rewrite <- !app_assoc|]. reflexivity.
Qed.

Lemma flush_step_ok (b : option Z) (i : nat) (s : state) :
  exists s', (if flush_due b i then emit EFlush else ret tt) s = inr (tt, s')
    /\ st_rows s' = st_rows s
    /\ exists new, st_log s' = st_log s ++ new /\ marks new = [].
Proof.
  destruct (flush_due b i); eexists; (split; [reflexivity|]); simpl; (split; [done|]).
  - by exists [EFlush].
  - exists []. by rewrite app_nil_r.
Qed.

Lemma replay_roots_bt_flat (fuel : nat) (tree : gmap string nat) (b : option Z) :
  forall roots idx s,
  (forall r, In r roots -> exists p, tree !! r = Some p /\ (p < length (st_rows s))%nat) ->
  exists s', replay_roots_bt fuel tree ∅ b idx roots s = inr (tt, s')
    /\ length (st_rows s') = length (st_rows s)
    /\ exists new, st_log s' = st_log s ++ new
         /\ marks new = flat_map (fun x => [Opn x; Cls x]) roots.
Proof.
  induction roots as [|r roots IH]; intros idx s Hr; simpl.
  - exists s. split; [done|]. split; [done|]. exists []. by rewrite app_nil_r.
  - destruct (Hr r (or_introl eq_refl)) as (p & Hp & Hlt).
    destruct (replay_root_bt_flat fuel tree r p s Hp Hlt) as (s1 & H1 & Hl1 & n1 & Hg1 & Hm1).
    destruct (flush_step_ok b idx s1) as (s2 & H2 & Hr2 & n2 & Hg2 & Hm2).
    destruct (IH (S idx) s2) as (s3 & H3 & Hl3 & n3 & Hg3 & Hm3).
    { intros x Hx. rewrite Hr2, Hl1. apply Hr. by right. }
    exists s3. unfold bind at 1. rewrite H1. unfold bind. rewrite H2, H3.
    split; [done|]. split; [by rewrite Hl3, Hr2|].
    exists (n1 ++ n2 ++ n3). rewrite Hg3, Hg2, Hg1, !marks_app, Hm1, Hm2, Hm3.
    by rewrite <- !app_assoc.
Qed.

Lemma replay_roots_ls_flat (fuel : nat) (tree : gmap string nat) (b : option Z) :
  forall roots idx s,
  (forall r, In r roots -> exists p, tree !! r = Some p /\ (p < length (st_rows s))%nat) ->
  exists s', replay_roots_ls fuel tree ∅ b idx roots s = inr (tt, s')
    /\ length (st_rows s') = length (st_rows s)
    /\ exists new, st_log s' = st_log s ++ new
         /\ marks new = flat_map (fun x => [Opn x; Cls x]) roots.
Proof.
  induction roots as [|r roots IH]; intros idx s Hr; simpl.
  - exists s. split; [done|]. split; [done|]. exists []. by rewrite app_nil_r.
  - destruct (Hr r (or_introl eq_refl)) as (p & Hp & Hlt).
    destruct (replay_root_ls_flat fuel tree r p s Hp Hlt) as (s1 & H1 & Hl1 & n1 & Hg1 & Hm1).
    destruct (flush_step_ok b idx s1) as (s2 & H2 & Hr2 & n2 & Hg2 & Hm2).
    destruct (IH (S idx) s2) as (s3 & H3 & Hl3 & n3 & Hg3 & Hm3).
    { intros x Hx. rewrite Hr2, Hl1. apply Hr. by right. }
    exists s3. unfold bind at 1. rewrite H1. unfold bind. rewrite H2, H3.
    split; [done|]. split; [by rewrite Hl3, Hr2|].
    exists (n1 ++ n2 ++ n3). rewrite Hg3, Hg2, Hg1, !marks_app, Hm1, Hm2, Hm3.
    by rewrite <- !app_assoc.
Qed.

Lemma iterations_bt_flat (fuel : nat) (tree : gmap string nat) (b : option Z)
    (roots : list string) :
  forall n s,
  (forall r, In r roots -> exists p, tree !! r = Some p /\ (p < length (st_rows s))%nat) ->
  exists s', iterations_bt fuel tree ∅ b n roots s = inr (tt, s')
    /\ exists new, st_log s' = st_log s ++ new
         /\ marks new = concat (replicate n (flat_map (fun x => [Opn x; Cls x]) roots)).
Proof.
  induction n as [|n IH]; intros s Hr; simpl.
  - exists s. split; [done|]. exists []. by rewrite app_nil_r.
  - destruct (replay_roots_bt_flat fuel tree b roots 0 s Hr) as (s1 & H1 & Hl1 & n1 & Hg1 & Hm1).
    destruct (IH s1) as (s2 & H2 & n2 & Hg2 & Hm2); [by rewrite Hl1|].
    exists s2. unfold bind. rewrite H1, H2. split; [done|].
    exists (n1 ++ n2). rewrite Hg2, Hg1, marks_app, Hm1, Hm2. by rewrite <- app_assoc.
Qed.

Lemma iterations_ls_flat (fuel : nat) (tree : gmap string nat) (b : option Z)
    (roots : list string) :
  forall n s,
  (forall r, In r roots -> exists p, tree !! r = Some p /\ (p < length (st_rows s))%nat) ->
  exists s', iterations_ls fuel tree ∅ b n roots s = inr (tt, s')
    /\ exists new, st_log s' = st_log s ++ new
         /\ marks new = concat (replicate n (flat_map (fun x => [Opn x; Cls x]) roots)).
Proof.
  induction n as [|n IH]; intros s Hr; simpl.
  - exists s. split; [done|]. exists []. by rewrite app_nil_r.
  - destruct (replay_roots_ls_flat fuel tree b roots 0 s Hr) as (s1 & H1 & Hl1 & n1 & Hg1 & Hm1).
    destruct (IH (mk_state (st_rows s1) (st_log s1 ++ [EFlush]))) as (s2 & H2 & n2 & Hg2 & Hm2);
      [simpl; by rewrite Hl1|].
    exists s2. unfold bind. rewrite H1. unfold emit. rewrite H2. split; [done|].
    exists (n1 ++ [EFlush] ++ n2). simpl in Hg2. rewrite Hg2, Hg1, !marks_app, Hm1, Hm2.
    by rewrite <- !app_assoc.
Qed.

Lemma roots_resolve (rows : list span_row) (n : nat) :
  length rows = n ->
  forall x, In x (map id rows) -> exists p, build_tree rows !! x = Some p /\ (p < n)%nat.
Proof.
  intros <- x Hx. apply in_map_iff in Hx as (r & <- & Hr). by apply build_tree_resolves.
Qed.

(** With [--flatten], the replay never descends into children: for every
    record list (for load_braintrust.py, one whose records all carry the
    [span_parents] key) the run succeeds, whatever the recursion bound,
    and each iteration opens and at once closes one top-level unit per
    record, in input order. *)
Theorem flatten_flat_replay (fuel : nat) (a : cli_args) (rows : list span_row) :
  flatten a = true ->
  (Forall (fun r => span_parents r <> SPAbsent) rows ->
   exists s', run_bt fuel a rows = inr (tt, s')
     /\ marks (st_log s') = concat (replicate (Z.to_nat (iterations a))
                                      (flat_map (fun x => [Opn x; Cls x]) (map id rows))))
  /\ (exists s', run_ls fuel a rows = inr (tt, s')
     /\ marks (st_log s') = concat (replicate (Z.to_nat (iterations a))
                                      (flat_map (fun x => [Opn x; Cls x]) (map id rows)))).
Proof.
  intros Hfl. split.
  - intros Hkey. unfold run_bt. rewrite Hfl, index_bt_flatten by done.
    destruct (iterations_bt_flat fuel (build_tree rows) (batch_size a) (map id rows)
                (Z.to_nat (iterations a)) (mk_state (map without_parents rows) []))
      as (s1 & H1 & n1 & Hg1 & Hm1).
    { simpl. apply roots_resolve. symmetry. apply length_map. }
    eexists. unfold replay_bt, bind. rewrite H1. split; [reflexivity|].
    simpl. rewrite Hg1, marks_app. simpl. by rewrite Hm1, app_nil_r.
  - unfold run_ls, index_ls. rewrite Hfl, index_ls_flatten. simpl.
    destruct (iterations_ls_flat fuel (build_tree rows) (batch_size a) (map id rows)
                (Z.to_nat (iterations a))
                (mk_state (map (fun r => match span_parents r with
                                         | SPAbsent => r | _ => without_parents r end) rows) []))
      as (s1 & H1 & n1 & Hg1 & Hm1).
    { simpl. apply roots_resolve. symmetry. apply length_map. }
    exists s1. unfold replay_ls. rewrite H1. split; [done|]. rewrite Hg1. done.
Qed.

Lemma flatten_flat_replay_witness :
  exists s', run_ls 0 (mk_args true 2 None None) demo_rows = inr (tt, s')
    /\ marks (st_log s') = concat (replicate 2 (flat_map (fun x => [Opn x; Cls x])
                                                  (map id demo_rows))).
Proof. apply (proj2 (flatten_flat_replay 0 (mk_args true 2 None None) demo_rows eq_refl)). Defined.

(** * Which records are emitted *)

(** Every unit opened in a depth-first traversal is the root or an id
    registered under the [span_id] of some row. *)
Lemma dfs_opens (sids : list string) (tree : gmap string nat)
    (children : gmap string (list string)) (t : rtree) :
  shaped sids tree children t -> forall y, In (Opn y) (dfs t) ->
  y = rlabel t \/ exists p sid, sids !! p = Some sid /\ In y (children_get children sid).
Proof.
  induction t as [x ks IH] using rtree_ind_all. intros Hs y Hy.
  apply shaped_node in Hs as ((p & sid & _ & Hsid & Hks) & Hall).
  simpl in Hy. destruct Hy as [[= ->]|Hy]; [by left|right].
  apply in_app_or in Hy as [Hy|[Hy|[]]]; [|done].
  apply in_flat_map in Hy as (k & Hk & Hy).
  rewrite Forall_forall in IH, Hall.
  destruct (IH k (proj2 (list_elem_of_In _ _) Hk) (Hall k (proj2 (list_elem_of_In _ _) Hk)) y Hy)
    as [->|Hex]; [|done].
  exists p, sid. split; [done|]. rewrite <- Hks. by apply in_map.
Qed.

Lemma replay_roots_bt_opens (fuel : nat) (tree : gmap string nat)
    (children : gmap string (list string)) (b : option Z) (roots0 : list string)
    (sids : list string) :
  forall roots idx s s',
  (forall r, In r roots -> In r roots0) ->
  span_id <$> st_rows s = sids ->
  replay_roots_bt fuel tree children b idx roots s = inr (tt, s') ->
  span_id <$> st_rows s' = sids
  /\ ((forall y, In (Opn y) (marks (st_log s)) -> In y roots0
        \/ exists p sid, sids !! p = Some sid /\ In y (children_get children sid)) ->
      forall y, In (Opn y) (marks (st_log s')) -> In y roots0
        \/ exists p sid, sids !! p = Some sid /\ In y (children_get children sid)).
Proof.
  induction roots as [|r roots IH]; intros idx s s' Hin Hs H; simpl in H.
  - by injection H as <-.
  - inv_bind H. units.
    destruct (replay_root_bt_ok _ _ _ _ _ _ Hm)
      as (p & row & new & t & _ & Hrow & Hrows & Hl & _ & _ & Hlab & Hsh & Hmk).
    inv_bind H. apply flush_step_inr in Hm0 as [Hr2 Hl2].
    assert (Hs2 : span_id <$> st_rows s1 = sids)
      by (rewrite Hr2, Hrows, span_ids_tag by done; exact Hs).
    destruct (IH _ _ _ ltac:(intros; apply Hin; by right) Hs2 H) as [Hs3 Hop].
    split; [done|]. intros Hold. apply Hop. intros y Hy.
    rewrite Hl2, Hl, !marks_app in Hy. rewrite Hmk in Hy.
    apply in_app_or in Hy as [Hy|Hy]; [apply in_app_or in Hy as [Hy|Hy]|].
    + by apply Hold.
    + rewrite Hs in Hsh. destruct (dfs_opens _ _ _ _ Hsh y Hy) as [->|Hex]; [|by right].
      left. rewrite Hlab. apply Hin. by left.
    + destruct (flush_due b idx); simpl in Hy; done.
Qed.

Lemma replay_roots_ls_opens (fuel : nat) (tree : gmap string nat)
    (children : gmap string (list string)) (b : option Z) (roots0 : list string)
    (sids : list string) :
  forall roots idx s s',
  (forall r, In r roots -> In r roots0) ->
  span_id <$> st_rows s = sids ->
  replay_roots_ls fuel tree children b idx roots s = inr (tt, s') ->
  span_id <$> st_rows s' = sids
  /\ ((forall y, In (Opn y) (marks (st_log s)) -> In y roots0
        \/ exists p sid, sids !! p = Some sid /\ In y (children_get children sid)) ->
      forall y, In (Opn y) (marks (st_log s')) -> In y roots0
        \/ exists p sid, sids !! p = Some sid /\ In y (children_get children sid)).
Proof.
  induction roots as [|r roots IH]; intros idx s s' Hin Hs H; simpl in H.
  - by injection H as <-.
  - inv_bind H. units.
    destruct (replay_root_ls_ok _ _ _ _ _ _ Hm)
      as (p & row & new & t & _ & Hrow & Hrows & Hl & _ & _ & Hlab & Hsh & Hmk).
    inv_bind H. apply flush_step_inr in Hm0 as [Hr2 Hl2].
    assert (Hs2 : span_id <$> st_rows s1 = sids) by (rewrite Hr2, Hrows; exact Hs).
    destruct (IH _ _ _ ltac:(intros; apply Hin; by right) Hs2 H) as [Hs3 Hop].
    split; [done|]. intros Hold. apply Hop. intros y Hy.
    rewrite Hl2, Hl, !marks_app in Hy. rewrite Hmk in Hy.
    apply in_app_or in Hy as [Hy|Hy]; [apply in_app_or in Hy as [Hy|Hy]|].
    + by apply Hold.
    + rewrite Hs in Hsh. destruct (dfs_opens _ _ _ _ Hsh y Hy) as [->|Hex]; [|by right].
      left. rewrite Hlab. apply Hin. by left.
    + destruct (flush_due b idx); simpl in Hy; done.
Qed.

Lemma replay_bt_opens (fuel : nat) (tree : gmap string nat)
    (children : gmap string (list string)) (b : option Z) (iters : Z) (roots : list string)
    (s s' : state) :
  replay_bt fuel tree children b iters roots s = inr (tt, s') ->
  marks (st_log s) = [] ->
  forall y, In (Opn y) (marks (st_log s')) -> In y roots
    \/ exists p sid, (span_id <$> st_rows s) !! p = Some sid /\ In y (children_get children sid).
Proof.
  intros H Hnil. unfold replay_bt in H. inv_bind H. units. apply emit_inr in H as ->. simpl.
  intros y. rewrite marks_app, app_nil_r. revert y.
  assert (Hgen : forall n s1, span_id <$> st_rows s1 = span_id <$> st_rows s ->
    iterations_bt fuel tree children b n roots s1 = inr (tt, s0) ->
    (forall y, In (Opn y) (marks (st_log s1)) -> In y roots
      \/ exists p sid, (span_id <$> st_rows s) !! p = Some sid
                       /\ In y (children_get children sid)) ->
    forall y, In (Opn y) (marks (st_log s0)) -> In y roots
      \/ exists p sid, (span_id <$> st_rows s) !! p = Some sid
                       /\ In y (children_get children sid)).
  { induction n as [|n IH]; intros s1 Hs1 Hit Hold; simpl in Hit.
    - by injection Hit as <-.
    - inv_bind Hit. units.
      destruct (replay_roots_bt_opens _ _ _ _ roots _ _ _ _ _ (fun r Hr => Hr) Hs1 Hm0)
        as [Hs2 Hop].
      exact (IH _ Hs2 Hit (Hop Hold)). }
  apply (Hgen _ s eq_refl Hm). intros y Hy. rewrite Hnil in Hy. done.
Qed.

Lemma replay_ls_opens (fuel : nat) (tree : gmap string nat)
    (children : gmap string (list string)) (b : option Z) (iters : Z) (roots : list string)
    (s s' : state) :
  replay_ls fuel tree children b iters roots s = inr (tt, s') ->
  marks (st_log s) = [] ->
  forall y, In (Opn y) (marks (st_log s')) -> In y roots
    \/ exists p sid, (span_id <$> st_rows s) !! p = Some sid /\ In y (children_get children sid).
Proof.
  intros H Hnil. unfold replay_ls in H.
  assert (Hgen : forall n s1, span_id <$> st_rows s1 = span_id <$> st_rows s ->
    iterations_ls fuel tree children b n roots s1 = inr (tt, s') ->
    (forall y, In (Opn y) (marks (st_log s1)) -> In y roots
      \/ exists p sid, (span_id <$> st_rows s) !! p = Some sid
                       /\ In y (children_get children sid)) ->
    forall y, In (Opn y) (marks (st_log s')) -> In y roots
      \/ exists p sid, (span_id <$> st_rows s) !! p = Some sid
                       /\ In y (children_get children sid)).
  { induction n as [|n IH]; intros s1 Hs1 Hit Hold; simpl in Hit.
    - by injection Hit as <-.
    - inv_bind Hit. units.
      destruct (replay_roots_ls_opens _ _ _ _ roots _ _ _ _ _ (fun r Hr => Hr) Hs1 Hm)
        as [Hs2 Hop].
      inv_bind Hit. apply emit_inr in Hm0 as ->.
      apply (IH (mk_state (st_rows s0) (st_log s0 ++ [EFlush])) Hs2 Hit). intros y Hy. simpl in Hy.
      rewrite marks_app, app_nil_r in Hy. by apply Hop. }
  apply (Hgen _ s eq_refl H). intros y Hy. rewrite Hnil in Hy. done.
Qed.

Lemma orphan_excluded (d : span_row -> exn + span_row) (rows rows' : list span_row)
    (children : gmap string (list string)) (roots : list string) (r : span_row)
    (q : string) (ps : list string) :
  keeps_fields d ->
  index_loop d false rows ∅ [] = inr (rows', children, roots) ->
  NoDup (map id rows) -> In r rows -> span_parents r = SPList (q :: ps) ->
  (forall r', In r' rows -> ~ In (span_id r') (q :: ps)) ->
  ~ (In (id r) roots
     \/ exists p sid, (span_id <$> rows') !! p = Some sid /\ In (id r) (children_get children sid)).
Proof.
  intros Hd Hix Hnd Hr Hsp Hdang.
  destruct (index_children_spec d false rows rows' children roots Hd Hix) as (_ & Hch & Hroots).
  destruct (index_loop_spec d false Hd _ _ _ _ _ _ Hix) as (_ & _ & Hsame).
  intros [Hin|(p & sid & Hsid & Hin)].
  - destruct (Hroots _ Hin) as (r0 & Hr0 & Hid & Hroot).
    assert (r0 = r) as -> by (apply (NoDup_map_eq id rows); done).
    unfold is_root in Hroot. rewrite Hsp in Hroot. done.
  - unfold children_get in Hin. destruct (children !! sid) as [l|] eqn:Hl; [|done].
    destruct (Hch _ _ Hl) as [_ Hx]. destruct (Hx _ Hin) as (r0 & ps0 & Hr0 & Hid & _ & Hsp0 & Hp0).
    assert (r0 = r) as -> by (apply (NoDup_map_eq id rows); done).
    rewrite Hsp in Hsp0. injection Hsp0 as <-.
    rewrite list_lookup_fmap in Hsid.
    destruct (rows' !! p) as [r1|] eqn:Hr1; [|done]. injection Hsid as <-.
    destruct (Forall2_lookup_r _ _ _ _ _ Hsame Hr1) as (r2 & Hr2 & _ & Hs2 & _).
    apply (Hdang r2); [apply list_elem_of_In, (list_elem_of_lookup_2 _ p), Hr2|].
    by rewrite <- Hs2.
Qed.

(** Without [--flatten], with unique record ids: a record that declares
    parents none of which is the [span_id] of a record is neither a root
    nor reachable from one, so neither script ever emits a unit for it;
    it is silently dropped. *)
Theorem orphan_never_emitted (fuel : nat) (a : cli_args) (rows : list span_row) (s' : state)
    (r : span_row) (q : string) (ps : list string) :
  flatten a = false -> NoDup (map id rows) -> In r rows -> span_parents r = SPList (q :: ps) ->
  (forall r', In r' rows -> ~ In (span_id r') (q :: ps)) ->
  (run_bt fuel a rows = inr (tt, s') -> ~ In (Opn (id r)) (marks (st_log s')))
  /\ (run_ls fuel a rows = inr (tt, s') -> ~ In (Opn (id r)) (marks (st_log s'))).
Proof.
  intros Hfl Hnd Hr Hsp Hdang. split; intros H Hy.
  - unfold run_bt in H. rewrite Hfl in H.
    destruct (index_bt false rows) as [e|[[rows' ch] roots]] eqn:Hix; [done|].
    apply (orphan_excluded _ _ _ _ _ _ _ _ del_parents_bt_keeps Hix Hnd Hr Hsp Hdang).
    exact (replay_bt_opens _ _ _ _ _ _ _ _ H eq_refl _ Hy).
  - unfold run_ls in H. rewrite Hfl in H.
    destruct (index_ls false rows) as [e|[[rows' ch] roots]] eqn:Hix; [done|].
    apply (orphan_excluded _ _ _ _ _ _ _ _ del_parents_ls_keeps Hix Hnd Hr Hsp Hdang).
    exact (replay_ls_opens _ _ _ _ _ _ _ _ H eq_refl _ Hy).
Qed.

Lemma orphan_never_emitted_witness :
  exists s', run_ls 3 (mk_args false 1 None None)
               [mk_row "A" "a" (SPList []) "root" ∅; mk_row "D" "d" (SPList ["zz"]) "lost" ∅]
             = inr (tt, s')
    /\ ~ In (Opn "D") (marks (st_log s')).
Proof.
  run_exists. split; [vm_compute; reflexivity|].
  apply (proj2 (orphan_never_emitted 3 (mk_args false 1 None None)
    [mk_row "A" "a" (SPList []) "root" ∅; mk_row "D" "d" (SPList ["zz"]) "lost" ∅] _
    (mk_row "D" "d" (SPList ["zz"]) "lost" ∅) "zz" [] eq_refl
    ltac:(apply (bool_decide_unpack _); vm_compute; exact I)
    ltac:(simpl; auto) eq_refl
    ltac:(intros r' [<-|[<-|[]]] [Hc|[]]; discriminate))).
  vm_compute. reflexivity.
Defined.

(** * Parsing: the whole result *)

Section ParseResult.
Context {J : Type}.
Variable json_loads : string -> option J.

Lemma parse_lines_shape (limit : option Z) (lines : list string) :
  forall (i : nat) (acc : parse_out J),
  let c := match limit with
           | None => lines
           | Some L => if L =? 0 then lines else take (Z.to_nat L - i) lines
           end in
  parse_lines json_loads limit i lines acc
  = mk_parse_out (parsed_rows acc ++ omap json_loads c)
      (warnings acc ++ List.filter (fun n => malformed json_loads (nth (n - S i) c EmptyString))
                                   (seq (S i) (length c)))
      (consumed acc ++ c).
Proof.
  induction lines as [|l rest IH]; intros i acc c; subst c.
  - destruct acc; simpl.
    destruct limit as [L|]; [destruct (L =? 0); [|rewrite take_nil]|]; simpl; rewrite ?app_nil_r; done.
  - cbn [parse_lines].
    destruct (limit_reached limit i) eqn:Hr.
    + destruct limit as [L|]; [|done]. simpl in Hr.
      apply andb_true_iff in Hr as [H0 HL]. apply negb_true_iff in H0. rewrite H0.
      apply Z.leb_le in HL. replace (Z.to_nat L - i)%nat with O by lia.
      destruct acc; simpl. rewrite ?app_nil_r. done.
    + set (c' := match limit with
                 | None => rest
                 | Some L => if L =? 0 then rest else take (Z.to_nat L - S i) rest
                 end).
      assert (Hc : match limit with
                   | None => l :: rest
                   | Some L => if L =? 0 then l :: rest else take (Z.to_nat L - i) (l :: rest)
                   end = l :: c').
      { subst c'. destruct limit as [L|]; [|done]. simpl in Hr.
        destruct (L =? 0) eqn:H0; [done|]. simpl in Hr. apply Z.leb_gt in Hr.
        replace (Z.to_nat L - i)%nat with (S (Z.to_nat L - S i)) by lia. done. }
      assert (Hf : List.filter (fun n => malformed json_loads (nth (n - S i) (l :: c') EmptyString))
                     (seq (S (S i)) (length c'))
                   = List.filter (fun n => malformed json_loads (nth (n - S (S i)) c' EmptyString))
                     (seq (S (S i)) (length c'))).
      { apply filter_ext_in. intros n Hn. apply in_seq in Hn.
        replace (n - S i)%nat with (S (n - S (S i))) by lia. done. }
      rewrite Hc. change (length (l :: c')) with (S (length c')).
      cbn [seq]. cbn [List.filter]. rewrite Hf, Nat.sub_diag. cbn [nth]. unfold malformed at 1.
      destruct (json_loads l) as [row|] eqn:Hj; rewrite IH; fold c'; simpl;
        rewrite <- ?app_assoc, ?Hj; done.
Qed.

(** The outcome of parsing a readable file: the lines read are all of them
    when there is no limit or the limit is [0] (falsy in
    [if args.limit and ...]), and otherwise the first [L] of them; the
    parsed rows are the decodable lines among those, in order; the
    warnings are the 1-based numbers of the other lines read, in
    increasing order. *)
Theorem parse_file_result (limit : option Z) (lines : list string) (out : parse_out J) :
  parse_file json_loads limit (Some lines) = inr out ->
  consumed out = match limit with
                 | None => lines
                 | Some L => if L =? 0 then lines else take (Z.to_nat L) lines
                 end
  /\ parsed_rows out = omap json_loads (consumed out)
  /\ warnings out = List.filter (fun n => malformed json_loads (nth (pred n) (consumed out) EmptyString))
                                (seq 1 (length (consumed out))).
Proof.
  simpl. intros [= <-]. rewrite parse_lines_shape. simpl.
  assert (Hc : match limit with
               | None => lines
               | Some L => if L =? 0 then lines else take (Z.to_nat L - 0) lines
               end
             = match limit with
               | None => lines
               | Some L => if L =? 0 then lines else take (Z.to_nat L) lines
               end)
    by (destruct limit as [L|]; [rewrite Nat.sub_0_r|]; done).
  rewrite Hc. split; [done|split; [done|]].
  apply filter_ext_in. intros n Hn. apply in_seq in Hn.
  replace (n - 1)%nat with (pred n) by lia. done.
Qed.
End ParseResult.

Lemma parse_file_result_witness :
  exists out, parse_file demo_loads (Some 0) (Some ["a"; "bad"; "b"; "bad"]) = inr out
  /\ consumed out = ["a"; "bad"; "b"; "bad"]
  /\ parsed_rows out = omap demo_loads (consumed out)
  /\ warnings out = [2; 4]%nat.
Proof.
  eexists. split; [reflexivity|].
  destruct (parse_file_result demo_loads (Some 0) ["a"; "bad"; "b"; "bad"] _ eq_refl)
    as (Hc & Hp & Hw).
  rewrite Hw, Hp, Hc. vm_compute. split; [reflexivity|split; reflexivity].
Defined.

(** * Iterations replay the same events *)

Section Frame.
Variable view : span_row -> span_row.

Lemma frame_seq (m k : M unit) : log_frame view m -> log_frame view k -> log_frame view (m ;;; k).
Proof.
  intros Fm Fk s1 s2 s1' Hv H. inv_bind H. units.
  destruct (Fm _ _ _ Hv Hm) as (t2 & n1 & E1 & Hv1 & L1 & L2).
  destruct (Fk _ _ _ Hv1 H) as (u2 & n2 & E2 & Hv2 & L3 & L4).
  exists u2, (n1 ++ n2). unfold bind. cbv beta. rewrite E1.
  split; [exact E2|]. split; [done|]. rewrite L3, L4, L1, L2, <- !app_assoc. done.
Qed.

Lemma frame_emit (ev : event) : log_frame view (emit ev).
Proof.
  intros s1 s2 s1' Hv H. apply emit_inr in H as ->.
  exists (mk_state (st_rows s2) (st_log s2 ++ [ev])), [ev]. done.
Qed.

Lemma frame_ret : log_frame view (ret tt).
Proof.
  intros s1 s2 s1' Hv H. injection H as <-. exists s2, []. rewrite !app_nil_r. done.
Qed.

Lemma frame_set_row (p : nat) (row : span_row) : log_frame view (set_row p row).
Proof.
  intros s1 s2 s1' Hv H. apply set_row_inr in H as ->.
  exists (mk_state (<[p := row]> (st_rows s2)) (st_log s2)), [].
  simpl. rewrite !list_fmap_insert, Hv, !app_nil_r. done.
Qed.

Lemma frame_flush (b : option Z) (i : nat) :
  log_frame view (if flush_due b i then emit EFlush else ret tt).
Proof. destruct (flush_due b i); [apply frame_emit|apply frame_ret]. Qed.

Lemma frame_for_each (f : string -> M unit) (l : list string) :
  (forall x, log_frame view (f x)) -> log_frame view (for_each f l).
Proof.
  intros Hf. induction l as [|x l IH]; simpl; [apply frame_ret|]. by apply frame_seq.
Qed.

Lemma view_lookup (R1 R2 : list span_row) (p : nat) (r1 : span_row) :
  view <$> R1 = view <$> R2 -> R1 !! p = Some r1 ->
  exists r2, R2 !! p = Some r2 /\ view r1 = view r2.
Proof.
  intros Hv H1. assert (E : (view <$> R1) !! p = (view <$> R2) !! p) by (by rewrite Hv).
  rewrite !list_lookup_fmap, H1 in E.
  destruct (R2 !! p) as [r2|]; [|done]. injection E as E. eauto.
Qed.

Lemma bind_lookup_row {B} (tree : gmap string nat) (x : string) (p : nat) (row : span_row)
    (k : nat * span_row -> M B) (s : state) :
  tree !! x = Some p -> st_rows s !! p = Some row ->
  (pr <- lookup_row tree x ;; k pr) s = k (p, row) s.
Proof. intros Ht Hr. unfold bind, lookup_row. rewrite Ht, Hr. done. Qed.

Hypothesis view_fields : forall r1 r2, view r1 = view r2 ->
  span_name r1 = span_name r2 /\ span_id r1 = span_id r2.

Lemma log_child_span_frame (fuel : nat) (tree : gmap string nat)
    (children : gmap string (list string)) :
  forall x, log_frame view (log_child_span fuel tree children x).
Proof.
  induction fuel as [|f IH]; intros x s1 s2 s1' Hv H; simpl in H; [done|].
  inv_bind H. destruct a as [p row]. apply lookup_row_inr in Hm as (-> & Htr & Hrow).
  destruct (view_lookup _ _ _ _ Hv Hrow) as (row2 & Hrow2 & Hvr).
  destruct (view_fields _ _ Hvr) as [Hn Hi].
  cbn [log_child_span]. rewrite (bind_lookup_row _ _ _ _ _ _ Htr Hrow2). cbn [snd].
  rewrite <- Hn, <- Hi. cbn [snd] in H. clear Hrow Hrow2.
  revert s1 s2 s1' Hv H.
  match goal with |- forall s1 s2 s1', _ -> ?m s1 = _ -> _ => change (log_frame view m) end.
  repeat apply frame_seq; try apply frame_emit. by apply frame_for_each.
Qed.

Lemma log_child_run_frame (fuel : nat) (tree : gmap string nat)
    (children : gmap string (list string)) :
  forall x, log_frame view (log_child_run fuel tree children x).
Proof.
  intros x s1 s2 s1' Hv H. rewrite log_child_run_span in H |- *.
  exact (log_child_span_frame fuel tree children x s1 s2 s1' Hv H).
Qed.
End Frame.

Lemma tag_view_fields (r1 r2 : span_row) :
  tag_row r1 = tag_row r2 -> span_name r1 = span_name r2 /\ span_id r1 = span_id r2.
Proof.
  intros E. split; [apply (f_equal span_name) in E|apply (f_equal span_id) in E]; exact E.
Qed.

Lemma same_view_fields (r1 r2 : span_row) :
  (fun r => r) r1 = (fun r => r) r2 -> span_name r1 = span_name r2 /\ span_id r1 = span_id r2.
Proof. intros E. cbv beta in E. by subst. Qed.

Lemma replay_root_bt_frame (fuel : nat) (tree : gmap string nat)
    (children : gmap string (list string)) (r : string) :
  log_frame tag_row (replay_root_bt fuel tree children r).
Proof.
  intros s1 s2 s1' Hv H. unfold replay_root_bt in H |- *.
  inv_bind H. destruct a as [p row]. apply lookup_row_inr in Hm as (-> & Htr & Hrow).
  destruct (view_lookup _ _ _ _ _ Hv Hrow) as (row2 & Hrow2 & Hvr).
  rewrite (bind_lookup_row _ _ _ _ _ _ Htr Hrow2). cbv beta iota zeta in H |- *.
  fold (tag_row row) in H. fold (tag_row row2). rewrite <- Hvr. clear Hrow Hrow2.
  revert s1 s2 s1' Hv H.
  match goal with |- forall s1 s2 s1', _ -> ?m s1 = _ -> _ => change (log_frame tag_row m) end.
  repeat apply frame_seq; try apply frame_emit; [apply frame_set_row|].
  apply frame_for_each. apply log_child_span_frame, tag_view_fields.
Qed.

Lemma replay_root_ls_frame (fuel : nat) (tree : gmap string nat)
    (children : gmap string (list string)) (r : string) :
  log_frame (fun r => r) (replay_root_ls fuel tree children r).
Proof.
  intros s1 s2 s1' Hv H. unfold replay_root_ls in H |- *.
  inv_bind H. destruct a as [p row]. apply lookup_row_inr in Hm as (-> & Htr & Hrow).
  destruct (view_lookup _ _ _ _ _ Hv Hrow) as (row2 & Hrow2 & Hvr). cbv beta in Hvr. subst row2.
  rewrite (bind_lookup_row _ _ _ _ _ _ Htr Hrow2). cbv beta iota zeta in H |- *.
  clear Hrow Hrow2. revert s1 s2 s1' Hv H.
  match goal with |- forall s1 s2 s1', _ -> ?m s1 = _ -> _ => change (log_frame (fun r => r) m) end.
  repeat apply frame_seq; try apply frame_emit.
  apply frame_for_each. apply log_child_run_frame, same_view_fields.
Qed.

Lemma replay_roots_bt_frame (fuel : nat) (tree : gmap string nat)
    (children : gmap string (list string)) (b : option Z) :
  forall roots idx, log_frame tag_row (replay_roots_bt fuel tree children b idx roots).
Proof.
  induction roots as [|r roots IH]; intros idx; simpl; [apply frame_ret|].
  apply frame_seq; [apply replay_root_bt_frame|]. apply frame_seq; [apply frame_flush|apply IH].
Qed.

Lemma replay_roots_ls_frame (fuel : nat) (tree : gmap string nat)
    (children : gmap string (list string)) (b : option Z) :
  forall roots idx, log_frame (fun r => r) (replay_roots_ls fuel tree children b idx roots).
Proof.
  induction roots as [|r roots IH]; intros idx; simpl; [apply frame_ret|].
  apply frame_seq; [apply replay_root_ls_frame|]. apply frame_seq; [apply frame_flush|apply IH].
Qed.

(** A pass over the roots leaves the rows as they look once tagged. *)
Lemma pass_view_bt (fuel : nat) (tree : gmap string nat)
    (children : gmap string (list string)) (b : option Z) (roots : list string)
    (idx : nat) (s s' : state) :
  replay_roots_bt fuel tree children b idx roots s = inr (tt, s') ->
  tag_row <$> st_rows s' = tag_row <$> st_rows s.
Proof.
  intros H. destruct (replay_roots_bt_rows _ _ _ _ _ _ _ _ H) as [Hp _].
  apply list_eq. intros q. rewrite !list_lookup_fmap, Hp.
  destruct (touched tree roots q); [apply tag_opt_idem|done].
Qed.

Lemma iterations_bt_same (fuel : nat) (tree : gmap string nat)
    (children : gmap string (list string)) (b : option Z) (roots : list string)
    (s s1 : state) (it : list event) :
  replay_roots_bt fuel tree children b 0 roots s = inr (tt, s1) ->
  st_log s1 = st_log s ++ it ->
  forall n t t', tag_row <$> st_rows t = tag_row <$> st_rows s ->
  iterations_bt fuel tree children b n roots t = inr (tt, t') ->
  st_log t' = st_log t ++ concat (replicate n it).
Proof.
  intros H1 Hl1. induction n as [|n IH]; intros t t' Hv H; simpl in H.
  - injection H as <-. simpl. by rewrite app_nil_r.
  - inv_bind H. units.
    destruct (replay_roots_bt_frame fuel tree children b roots 0 s t s1 (eq_sym Hv) H1)
      as (t2 & new & E & _ & L1 & L2).
    rewrite E in Hm. injection Hm as <-.
    rewrite Hl1 in L1. apply app_inv_head in L1 as <-.
    rewrite (IH _ _ (eq_trans (pass_view_bt _ _ _ _ _ _ _ _ E) Hv) H), L2.
    simpl. by rewrite <- app_assoc.
Qed.

Lemma iterations_ls_same (fuel : nat) (tree : gmap string nat)
    (children : gmap string (list string)) (b : option Z) (roots : list string)
    (s s1 : state) (it : list event) :
  replay_roots_ls fuel tree children b 0 roots s = inr (tt, s1) ->
  st_log s1 = st_log s ++ it ->
  forall n t t', st_rows t = st_rows s ->
  iterations_ls fuel tree children b n roots t = inr (tt, t') ->
  st_log t' = st_log t ++ concat (replicate n (it ++ [EFlush])).
Proof.
  intros H1 Hl1. induction n as [|n IH]; intros t t' Hv H; simpl in H.
  - injection H as <-. simpl. by rewrite app_nil_r.
  - inv_bind H. units.
    assert (Hv' : (fun r => r) <$> st_rows s = (fun r => r) <$> st_rows t) by (by rewrite Hv).
    destruct (replay_roots_ls_frame fuel tree children b roots 0 s t s1 Hv' H1)
      as (t2 & new & E & _ & L1 & L2).
    rewrite E in Hm. injection Hm as <-.
    rewrite Hl1 in L1. apply app_inv_head in L1 as <-.
    inv_bind H. apply emit_inr in Hm as ->.
    destruct (replay_roots_ls_rows _ _ _ _ _ _ _ _ E) as [Hr2 _].
    assert (Hv2 : st_rows (mk_state (st_rows t2) (st_log t2 ++ [EFlush])) = st_rows s) by (simpl; congruence).
    rewrite (IH _ _ Hv2 H). simpl. rewrite L2.
    by rewrite <- !app_assoc.
Qed.

(** Every iteration of a replay sends the same events: with a successful
    replay, the log of Braintrust is [n] copies of the events of one pass
    over the roots followed by the final flush, and the log of LangSmith
    [n] copies of one pass followed by its flush.  The model tag that the
    first Braintrust pass writes into the root rows does not change what a
    later pass sends, as every pass sends the tagged metadata. *)
Theorem iterations_identical (fuel : nat) (tree : gmap string nat)
    (children : gmap string (list string)) (b : option Z) (iters : Z)
    (roots : list string) (s s' : state) :
  (replay_bt fuel tree children b iters roots s = inr (tt, s') ->
   exists it, st_log s' = st_log s ++ concat (replicate (Z.to_nat iters) it) ++ [EFlush])
  /\ (replay_ls fuel tree children b iters roots s = inr (tt, s') ->
      exists it, st_log s' = st_log s ++ concat (replicate (Z.to_nat iters) (it ++ [EFlush]))).
Proof.
  split; intros H.
  - unfold replay_bt in H. inv_bind H. units. apply emit_inr in H as ->. simpl.
    destruct (Z.to_nat iters) as [|n] eqn:Hn.
    + simpl in Hm. injection Hm as <-. exists []. done.
    + assert (Hm' := Hm). simpl in Hm'. inv_bind Hm'. units.
      destruct (replay_roots_bt_log _ _ _ _ _ _ _ _ Hm0) as (pieces & _ & _ & Hl).
      exists (pass_log b 0 pieces).
      rewrite (iterations_bt_same _ _ _ _ _ _ _ _ Hm0 Hl (S n) s s0 eq_refl Hm).
      by rewrite <- app_assoc.
  - unfold replay_ls in H. destruct (Z.to_nat iters) as [|n] eqn:Hn.
    + simpl in H. injection H as <-. exists []. simpl. by rewrite app_nil_r.
    + assert (H' := H). simpl in H'. inv_bind H'. units.
      destruct (replay_roots_ls_log _ _ _ _ _ _ _ _ Hm) as (pieces & _ & _ & Hl).
      exists (pass_log b 0 pieces).
      exact (iterations_ls_same _ _ _ _ _ _ _ _ Hm Hl (S n) s s' eq_refl H).
Qed.

Lemma iterations_identical_witness :
  exists s', replay_bt 3 (build_tree demo_rows) demo_index.1.2 (Some 1) 2 demo_index.2 demo_store
               = inr (tt, s')
    /\ exists it, st_log s' = st_log demo_store ++ concat (replicate (Z.to_nat 2) it) ++ [EFlush].
Proof.
  run_exists. split; [vm_compute; reflexivity|].
  apply (proj1 (iterations_identical 3 (build_tree demo_rows) demo_index.1.2 (Some 1) 2
                  demo_index.2 demo_store _)).
  vm_compute. reflexivity.
Defined.

(** * Download of the trace file *)

Lemma trace_ne_compressed : TRACE_FILE <> COMPRESSED_FILE.
Proof. unfold TRACE_FILE, COMPRESSED_FILE. discriminate. Qed.

Section DownloadProofs.
Variable fails : os_call -> bool.

Lemma copy_chunks_app (dst : string) (cs : list (list Byte.byte)) :
  (forall c, fails c = false) -> (forall c, In c cs -> c <> []) ->
  forall tail k fs d, fs !! dst = Some d ->
  copy_chunks fails dst k (map inr cs ++ tail) fs
  = copy_chunks fails dst (k + length cs) tail (<[dst := d ++ concat cs]> fs).
Proof.
  intros Hok. induction cs as [|c cs IH]; intros Hne tail k fs d Hd; cbn [map app concat length].
  - rewrite app_nil_r, Nat.add_0_r, insert_id by exact Hd. done.
  - destruct c as [|b c]; [by destruct (Hne [] (or_introl eq_refl))|].
    cbn [copy_chunks]. rewrite Hok, Hd. cbn [default].
    rewrite (IH (fun c' Hc' => Hne c' (or_intror Hc')) tail (S k) _ (d ++ b :: c))
      by by rewrite lookup_insert_eq.
    rewrite insert_insert_eq, <- app_assoc. f_equal. lia.
Qed.






Lemma write_file_all (dst : string) (cs : list (list Byte.byte)) (fs : fsys) :
  (forall c, fails c = false) -> (forall c, In c cs -> c <> []) ->
  write_file fails dst (map inr cs) fs = inr (<[dst := concat cs]> fs).
Proof.
  intros Hok Hne. unfold write_file. rewrite Hok.
  rewrite <- (app_nil_r (map inr cs)).
  rewrite (copy_chunks_app dst cs Hok Hne [] 0 _ []) by apply lookup_insert_eq.
  cbn [copy_chunks app]. rewrite Hok, insert_insert_eq. done.
Qed.

(** A download that goes through: when no file-system call fails, the
    network delivers the data in non-empty chunks and the decompressor
    delivers its output in non-empty chunks, the call returns with the
    trace file holding the output of decompressing the whole download, no
    compressed file (one left from an earlier run is replaced, then
    removed) and every other file as it was. *)
Theorem download_success (cs ds : list (list Byte.byte))
    (gunzip : list Byte.byte -> list (pexn + list Byte.byte)) (fs : fsys) :
  (forall c, fails c = false) ->
  fs !! TRACE_FILE = None ->
  (forall c, In c cs -> c <> []) ->
  gunzip (concat cs) = map inr ds ->
  (forall d, In d ds -> d <> []) ->
  download_and_extract_traces fails (inr (map inr cs)) gunzip fs
  = Returned (<[TRACE_FILE := concat ds]> (delete COMPRESSED_FILE fs)).
Proof.
  intros Hok HT Hc Hg Hd. pose proof trace_ne_compressed as HTC.
  unfold download_and_extract_traces.
  rewrite bool_decide_eq_false_2 by (rewrite HT; apply is_Some_None).
  unfold try_download. rewrite Hok.
  rewrite (write_file_all COMPRESSED_FILE cs fs Hok Hc), ?Hok. cbn iota beta.
  rewrite lookup_insert_eq. cbn [default Datatypes.id]. rewrite Hg.
  rewrite (write_file_all TRACE_FILE ds _ Hok Hd), ?Hok. cbn iota beta.
  f_equal. apply map_eq. intros k.
  destruct (decide (k = TRACE_FILE)) as [->|HkT].
  - rewrite lookup_delete_ne, !lookup_insert_eq by congruence. done.
  - rewrite lookup_insert_ne by congruence.
    destruct (decide (k = COMPRESSED_FILE)) as [->|HkC].
    + rewrite !lookup_delete_eq. done.
    + rewrite !lookup_delete_ne by congruence.
      rewrite !lookup_insert_ne by congruence. done.
Qed.


End DownloadProofs.

(** A download over a stale compressed file: one chunk from the network,
    one chunk out of the decompressor. *)
Lemma download_success_witness :
  download_and_extract_traces (fun _ => false) (inr [inr [Byte.x01]]) (fun _ => [inr [Byte.x02]])
    {[COMPRESSED_FILE := [Byte.x05]]}
  = Returned (<[TRACE_FILE := [Byte.x02]]> (delete COMPRESSED_FILE {[COMPRESSED_FILE := [Byte.x05]]})).
Proof.
  apply (download_success (fun _ => false) [[Byte.x01]] [[Byte.x02]]).
  - reflexivity.
  - vm_compute. reflexivity.
  - intros c [<-|[]]. discriminate.
  - reflexivity.
  - intros d [<-|[]]. discriminate.
Defined.


